(** * pnguin: the PNG chunk parser and the tag-stripping encoder

    A shallow embedding of package [png] (chunk registry, [IsPNG], [Parse],
    [chunks], [WalkChunks], [StripTags], [parseHeader]) together with the
    parts of the Go standard library the package calls ([bytes.Compare],
    [binary.BigEndian.Uint32], [bufio.Reader.Peek], [io.ReadFull],
    [io.Pipe]), followed by the properties of the parser and the encoder. *)

From Stdlib Require Import Strings.String Strings.Byte.
From Stdlib Require Import List NArith ZArith Lia Bool.
From Equations Require Import Equations.
Import ListNotations.

Local Open Scope list_scope.

(* ===================================================================== *)
(** ** The Go library, as far as the package uses it                      *)
(* ===================================================================== *)

Module Go.

(** Go's [error] values.  [fmt.Errorf] keeps its format string and its
    arguments; the arguments are either an error (possibly [nil]) printed
    with [%v] or an integer printed with [%d]. *)
Inductive error : Type :=
| io_EOF
| io_ErrUnexpectedEOF
| io_ErrClosedPipe
| io_failure (code : nat)
| errors_New (msg : string)
| fmt_Errorf (format : string) (args : list fmtarg)
with fmtarg : Type :=
| arg_err (e : option error)
| arg_int (n : nat).

(** [err == io.EOF] *)
Definition is_EOF (err : option error) : bool :=
  match err with
  | Some io_EOF => true
  | _ => false
  end.

(** [err != nil] *)
Definition not_nil (err : option error) : bool :=
  match err with
  | Some _ => true
  | None => false
  end.

(** [bytes.Compare]: lexicographic comparison, -1, 0 or 1. *)
Fixpoint bytes_Compare (a b : list byte) : Z :=
  match a, b with
  | [], [] => 0
  | [], _ :: _ => -1
  | _ :: _, [] => 1
  | x :: a', y :: b' =>
      match N.compare (Byte.to_N x) (Byte.to_N y) with
      | Lt => -1
      | Gt => 1
      | Eq => bytes_Compare a' b'
      end
  end%Z.

(** A Go array [[4]byte]. *)
Definition array4 : Type := byte * byte * byte * byte.

Definition zero4 : array4 := (x00, x00, x00, x00).

(** [a[:]] *)
Definition slice4 (a : array4) : list byte :=
  let '(a0, a1, a2, a3) := a in [a0; a1; a2; a3].

(** The array after [copy(a[:], bs)]: the leading elements are
    overwritten, the others keep their value. *)
Definition copy4 (a : array4) (bs : list byte) : array4 :=
  let '(a0, a1, a2, a3) := a in
  match bs with
  | [] => a
  | [b0] => (b0, a1, a2, a3)
  | [b0; b1] => (b0, b1, a2, a3)
  | [b0; b1; b2] => (b0, b1, b2, a3)
  | b0 :: b1 :: b2 :: b3 :: _ => (b0, b1, b2, b3)
  end.

(** The slice [make([]byte, n)] after [bs] was read into it. *)
Definition filled (n : nat) (bs : list byte) : list byte :=
  firstn n bs ++ repeat x00 (n - length bs).

(** [uint32] arithmetic, wrap-around written out. *)
Definition u32 (x : N) : N := (x mod 2 ^ 32)%N.
Definition shl32 (x k : N) : N := u32 (N.shiftl x k).
Definition or32 (x y : N) : N := N.lor x y.

(** [binary.BigEndian.Uint32] on the four bytes it reads:
    [uint32(b[3]) | uint32(b[2])<<8 | uint32(b[1])<<16 | uint32(b[0])<<24]. *)
Definition Uint32_4 (a : array4) : N :=
  let '(b0, b1, b2, b3) := a in
  or32 (or32 (or32 (Byte.to_N b3) (shl32 (Byte.to_N b2) 8))
             (shl32 (Byte.to_N b1) 16))
       (shl32 (Byte.to_N b0) 24).

(** [binary.BigEndian.Uint32(b)]; [None] is the run-time panic of the
    bounds check [_ = b[3]] on a slice shorter than four bytes. *)
Definition Uint32 (b : list byte) : option N :=
  match b with
  | b0 :: b1 :: b2 :: b3 :: _ => Some (Uint32_4 (b0, b1, b2, b3))
  | _ => None
  end.

(** [b[lo:hi]]; [None] is the panic on [hi > len(b)] or [lo > hi]. *)
Definition slice (b : list byte) (lo hi : nat) : option (list byte) :=
  if (lo <=? hi) && (hi <=? length b)
  then Some (firstn (hi - lo) (skipn lo b))
  else None.

(** [b[i]]; [None] is the panic on an index out of range. *)
Definition index (b : list byte) (i : nat) : option byte := nth_error b i.

(** *** [bufio.Reader] over an [io.Reader]

    The reader is described by the bytes it holds in its buffer and has
    not handed out yet, the bytes the underlying source has not delivered
    yet, and the error the underlying source reports once it is drained
    ([io.EOF] for a file).  The underlying source is taken to deliver as
    many bytes as a [Read] asks for, as files and byte buffers do. *)
Record Reader : Type := mkReader {
  buffered : list byte;
  source : list byte;
  srcerr : error
}.

(** [bufio.NewReader] allocates a buffer of [defaultBufSize] bytes. *)
Definition defaultBufSize : nat := 4096.

Definition NewReader (src : list byte) (err : error) : Reader :=
  {| buffered := []; source := src; srcerr := err |}.

(** What a consumer can still read. *)
Definition unread (br : Reader) : list byte := buffered br ++ source br.

(** [b.fill()]: one read of the underlying source into the free part of
    the buffer. *)
Definition fill (br : Reader) : Reader :=
  let free := defaultBufSize - length (buffered br) in
  {| buffered := buffered br ++ firstn free (source br);
     source := skipn free (source br);
     srcerr := srcerr br |}.

(** [b.Peek(n)] for [n <= defaultBufSize]: fills the buffer while it has
    fewer than [n] bytes, then returns the first [n] buffered bytes
    without advancing; with fewer than [n] bytes available it returns
    what there is and the source's error. *)
Definition Peek (br : Reader) (n : nat) : Reader * list byte * option error :=
  let br' := if length (buffered br) <? n then fill br else br in
  if length (buffered br') <? n
  then (br', buffered br', Some (srcerr br'))
  else (br', firstn n (buffered br'), None).

(** The reader after [n] bytes were handed out. *)
Definition advance (br : Reader) (n : nat) : Reader :=
  {| buffered := skipn n (buffered br);
     source := skipn (n - length (buffered br)) (source br);
     srcerr := srcerr br |}.

(** [io.ReadAtLeast] turns an [io.EOF] that comes after some bytes into
    [io.ErrUnexpectedEOF] and passes other errors on. *)
Definition unexpected (e : error) : error :=
  match e with
  | io_EOF => io_ErrUnexpectedEOF
  | _ => e
  end.

(** [io.ReadFull(br, buf)] with [len(buf) = n]: the bytes read and the
    error.  The error is [io.EOF] only if no byte was read; an end of
    input after some but not all bytes is [io.ErrUnexpectedEOF]; a
    zero-length buffer is read without touching the source. *)
Definition ReadFull (br : Reader) (n : nat) : Reader * list byte * option error :=
  let avail := unread br in
  if n =? 0 then (br, [], None)
  else if n <=? length avail then (advance br n, firstn n avail, None)
  else match avail with
       | [] => (br, [], Some (srcerr br))
       | _ :: _ =>
           (advance br (length avail), avail, Some (unexpected (srcerr br)))
       end.

(** *** [io.Pipe]

    The write half of a pipe, with the consumer of the read half
    described by [demand]: [None] for a consumer that reads up to the
    end (as [io.Copy] does), [Some k] for one that closes the read half
    after taking [k] more bytes. *)
Record PipeWriter : Type := mkPipe {
  delivered : list byte;
  demand : option nat;
  closedWith : option (option error)
}.

Definition Pipe (demand : option nat) : PipeWriter :=
  {| delivered := []; demand := demand; closedWith := None |}.

(** [w.Write(bs)]: blocks until the consumer took every byte, or fails
    with [io.ErrClosedPipe] once the read half is closed. *)
Definition Write (w : PipeWriter) (bs : list byte) : PipeWriter * option error :=
  match demand w with
  | None =>
      ({| delivered := delivered w ++ bs; demand := None;
          closedWith := closedWith w |}, None)
  | Some k =>
      if (0 <? k) && (length bs <=? k)
      then ({| delivered := delivered w ++ bs;
               demand := Some (k - length bs);
               closedWith := closedWith w |}, None)
      else ({| delivered := delivered w ++ firstn k bs;
               demand := Some 0;
               closedWith := closedWith w |}, Some io_ErrClosedPipe)
  end.

(** [w.CloseWithError(err)]: the first close wins. *)
Definition CloseWithError (w : PipeWriter) (err : option error) : PipeWriter :=
  match closedWith w with
  | Some _ => w
  | None => {| delivered := delivered w; demand := demand w;
               closedWith := Some err |}
  end.

End Go.

Import Go.

(* ===================================================================== *)
(** ** Package png                                                        *)
(* ===================================================================== *)

Definition ascii4 (s : string) : list byte := list_byte_of_string s.

Definition pngHeader : list byte := [x89; x50; x4e; x47; x0d; x0a; x1a; x0a].

Definition ctHdr : list byte := Eval cbv in ascii4 "IHDR".
Definition ctPlte : list byte := Eval cbv in ascii4 "PLTE".
Definition ctDat : list byte := Eval cbv in ascii4 "IDAT".
Definition ctEnd : list byte := Eval cbv in ascii4 "IEND".
Definition ctBkgd : list byte := Eval cbv in ascii4 "bKGD".
Definition ctChrm : list byte := Eval cbv in ascii4 "cHRM".
Definition ctDSig : list byte := Eval cbv in ascii4 "dSIG".
Definition ctExif : list byte := Eval cbv in ascii4 "eXIf".
Definition ctGama : list byte := Eval cbv in ascii4 "gAMA".
Definition ctHist : list byte := Eval cbv in ascii4 "hIST".
Definition ctIccp : list byte := Eval cbv in ascii4 "iCCP".
Definition ctItxt : list byte := Eval cbv in ascii4 "iTXt".
Definition ctPhys : list byte := Eval cbv in ascii4 "pHYs".
Definition ctSbit : list byte := Eval cbv in ascii4 "sBIT".
Definition ctSplt : list byte := Eval cbv in ascii4 "sPLT".
Definition ctSrgb : list byte := Eval cbv in ascii4 "sRGB".
Definition ctSter : list byte := Eval cbv in ascii4 "sTER".
Definition ctText : list byte := Eval cbv in ascii4 "tEXt".
Definition ctTime : list byte := Eval cbv in ascii4 "tIME".
Definition ctTrns : list byte := Eval cbv in ascii4 "tRNS".
Definition ctZtxt : list byte := Eval cbv in ascii4 "zTXt".

(** [type chunkType uint32] with its [iota] constants, in declaration
    order. *)
Inductive chunkType : Type :=
| ChunkTypeUnknown
| ChunkTypeHeader
| ChunkTypePalette
| ChunkTypeData
| ChunkTypeEnd
| ChunkTypeBkgdColor
| ChunkTypeChromaticity
| ChunkTypeDigiSignal
| ChunkTypeExif
| ChunkTypeGamma
| ChunkTypeHistogram
| ChunkTypeICC
| ChunkTypeTxtUTF8
| ChunkTypePxSize
| ChunkTypeSigBits
| ChunkTypeSugPalette
| ChunkTypeRGB
| ChunkTypeStereo
| ChunkTypeTxtISO8859
| ChunkTypeTimeChanged
| ChunkTypeTransparency
| ChunkTypeTxtCompressed.

Derive NoConfusion EqDec for chunkType.

Definition chunkType_eqb (a b : chunkType) : bool :=
  if chunkType_eqdec a b then true else false.

(** [Chunk]: the zero value has zeroed arrays, type 0 and a nil slice. *)
Record Chunk : Type := mkChunk {
  Length : array4;
  CRC : array4;
  Type_ : chunkType;
  Data : list byte
}.

Definition zeroChunk : Chunk :=
  {| Length := zero4; CRC := zero4; Type_ := ChunkTypeUnknown; Data := [] |}.

Record headerChunk : Type := mkHeader {
  Width : N;
  Height : N;
  BitDepth : byte;
  ColorType : byte;
  CompressionMethod : byte;
  FilterMethod : byte;
  InterlaceMethod : byte
}.

Definition zeroHeader : headerChunk :=
  {| Width := 0; Height := 0; BitDepth := x00; ColorType := x00;
     CompressionMethod := x00; FilterMethod := x00; InterlaceMethod := x00 |}.

(** [Parser]: [rc] and [br] are one field here, the buffered reader over
    the input. *)
Record Parser : Type := mkParser {
  Path : string;
  br : Reader;
  data : list Chunk
}.

Definition New (path : string) (rc : list byte) (rcerr : error) : Parser :=
  {| Path := path; br := NewReader rc rcerr; data := [] |}.

Definition set_br (p : Parser) (r : Reader) : Parser :=
  {| Path := Path p; br := r; data := data p |}.

Definition set_data (p : Parser) (d : list Chunk) : Parser :=
  {| Path := Path p; br := br p; data := d |}.

(** [getChunkType] *)
Definition getChunkType (ct : list byte) : chunkType :=
  if (bytes_Compare ct ctHdr =? 0)%Z then ChunkTypeHeader
  else if (bytes_Compare ct ctPlte =? 0)%Z then ChunkTypePalette
  else if (bytes_Compare ct ctDat =? 0)%Z then ChunkTypeData
  else if (bytes_Compare ct ctEnd =? 0)%Z then ChunkTypeEnd
  else if (bytes_Compare ct ctBkgd =? 0)%Z then ChunkTypeBkgdColor
  else if (bytes_Compare ct ctChrm =? 0)%Z then ChunkTypeChromaticity
  else if (bytes_Compare ct ctDSig =? 0)%Z then ChunkTypeDigiSignal
  else if (bytes_Compare ct ctExif =? 0)%Z then ChunkTypeExif
  else if (bytes_Compare ct ctGama =? 0)%Z then ChunkTypeGamma
  else if (bytes_Compare ct ctHist =? 0)%Z then ChunkTypeHistogram
  else if (bytes_Compare ct ctIccp =? 0)%Z then ChunkTypeICC
  else if (bytes_Compare ct ctItxt =? 0)%Z then ChunkTypeTxtUTF8
  else if (bytes_Compare ct ctPhys =? 0)%Z then ChunkTypePxSize
  else if (bytes_Compare ct ctSbit =? 0)%Z then ChunkTypeSigBits
  else if (bytes_Compare ct ctSplt =? 0)%Z then ChunkTypeSugPalette
  else if (bytes_Compare ct ctSrgb =? 0)%Z then ChunkTypeRGB
  else if (bytes_Compare ct ctSter =? 0)%Z then ChunkTypeStereo
  else if (bytes_Compare ct ctText =? 0)%Z then ChunkTypeTxtISO8859
  else if (bytes_Compare ct ctTime =? 0)%Z then ChunkTypeTimeChanged
  else if (bytes_Compare ct ctTrns =? 0)%Z then ChunkTypeTransparency
  else if (bytes_Compare ct ctZtxt =? 0)%Z then ChunkTypeTxtCompressed
  else ChunkTypeUnknown.

(** [parseHeader]: the pair Go returns; the outer [None] is a run-time
    panic of a slice or index expression. *)
Definition parseHeader (data : list byte) : option (headerChunk * option error) :=
  let hdr := zeroHeader in
  let l := length data in
  if negb (l =? 13) then
    Some (hdr, Some (fmt_Errorf "got %d bytes for header chunk, expected %d"
                                [arg_int l; arg_int 13]))
  else
    match slice data 0 4 with None => None | Some s04 =>
    match Uint32 s04 with None => None | Some width =>
    match slice data 4 8 with None => None | Some s48 =>
    match Uint32 s48 with None => None | Some height =>
    match index data 8 with None => None | Some d8 =>
    match index data 9 with None => None | Some d9 =>
    match index data 10 with None => None | Some d10 =>
    match index data 11 with None => None | Some d11 =>
    match index data 12 with None => None | Some d12 =>
      Some ({| Width := width; Height := height; BitDepth := d8;
               ColorType := d9; CompressionMethod := d10;
               FilterMethod := d11; InterlaceMethod := d12 |}, None)
    end end end end end end end end end.

Definition set_Length (c : Chunk) (a : array4) : Chunk :=
  {| Length := a; CRC := CRC c; Type_ := Type_ c; Data := Data c |}.

Definition set_CRC (c : Chunk) (a : array4) : Chunk :=
  {| Length := Length c; CRC := a; Type_ := Type_ c; Data := Data c |}.

Definition set_Type (c : Chunk) (t : chunkType) : Chunk :=
  {| Length := Length c; CRC := CRC c; Type_ := t; Data := Data c |}.

Definition set_Data (c : Chunk) (d : list byte) : Chunk :=
  {| Length := Length c; CRC := CRC c; Type_ := Type_ c; Data := d |}.

(** [IsPNG] *)
Definition IsPNG (p : Parser) : Parser * bool * option error :=
  let '(r, b, err) := Peek (br p) 8 in
  let p := set_br p r in
  if not_nil err then (p, false, err)
  else (p, (bytes_Compare pngHeader b =? 0)%Z, None).

(** How one pass through the body of the [for] loop of [chunks] ends: at
    [chunks = append(chunks, c)], at a [break], or at a [return] with an
    error. *)
Inductive iteration : Type :=
| Append (r : Reader) (c : Chunk)
| Break (r : Reader)
| Return (r : Reader) (err : error).

(** The body of the [for] loop of [chunks]. *)
Definition readChunk (r : Reader) : iteration :=
  let c := zeroChunk in
  (* Read LENGTH *)
  let '(r, got, err) := ReadFull r 4 in
  let c := set_Length c (copy4 (Length c) got) in
  if is_EOF err then Break r
  else if not_nil err then
    Return r (fmt_Errorf "unable to read chunk length: %v" [arg_err err])
  else
  (* Read TYPE *)
  let '(r, got, err) := ReadFull r 4 in
  let chType := filled 4 got in
  if is_EOF err then Break r
  else if not_nil err then
    Return r (fmt_Errorf "unable to read chunk type: %v" [arg_err err])
  else
  let c := set_Type c (getChunkType chType) in
  (* Read DATA *)
  let l := N.to_nat (Uint32_4 (Length c)) in
  let '(r, got, err) := ReadFull r l in
  let data := filled l got in
  if is_EOF err then Break r
  else if not_nil err then
    Return r (fmt_Errorf "unable to read chunk data: %v" [arg_err err])
  else
  let c := set_Data c data in
  (* Read CRC *)
  let '(r, got, err) := ReadFull r 4 in
  let read := length got in
  let c := set_CRC c (copy4 (CRC c) got) in
  if is_EOF err then Break r
  else if not_nil err then
    Return r (fmt_Errorf "unable to read chunk CRC: %v" [arg_err err])
  else if negb (read =? 4) then
    Return r (fmt_Errorf "short read on chunk CRC (got %d bytes, expected %d)"
                         [arg_int read; arg_int 4])
  else Append r c.

Definition inspect {A : Type} (a : A) : {b : A | a = b} := exist _ a eq_refl.

(** *** Termination of the chunk loop

    A pass that reaches [append] has read a whole length field, so the
    input ahead got shorter. *)
Lemma advance_unread (r : Reader) (k : nat) :
  unread (advance r k) = skipn k (unread r).
Proof. unfold unread, advance. simpl. symmetry. apply skipn_app. Qed.

(** What [io.ReadFull] hands out is a prefix of the unread input, which
    it removes; without an error it hands out as many bytes as asked. *)
Lemma ReadFull_unread (r r' : Reader) (n : nat) (got : list byte)
      (err : option error) :
  ReadFull r n = (r', got, err) ->
  unread r' = skipn (length got) (unread r) /\ srcerr r' = srcerr r /\
  got = firstn (length got) (unread r) /\
  (err = None -> length got = n).
Proof.
  unfold ReadFull.
  destruct (n =? 0) eqn:E0.
  - apply Nat.eqb_eq in E0. intros [= <- <- <-]. simpl. auto.
  - destruct (n <=? length (unread r)) eqn:E1.
    + apply Nat.leb_le in E1. intros [= <- <- <-].
      rewrite advance_unread, length_firstn, Nat.min_l by exact E1.
      repeat split; auto.
    + destruct (unread r) as [|b rest] eqn:Ea.
      * intros [= <- <- <-]. simpl. rewrite Ea. repeat split; auto. discriminate.
      * intros [= <- <- <-]. rewrite advance_unread, Ea, firstn_all.
        repeat split; auto. discriminate.
Qed.

Lemma readChunk_Append_shorter (r r' : Reader) (c : Chunk) :
  readChunk r = Append r' c -> length (unread r') < length (unread r).
Proof.
  unfold readChunk.
  destruct (ReadFull r 4) as [[r1 g1] e1] eqn:E1.
  destruct e1 as [e1|]; [destruct e1; discriminate|]. simpl.
  destruct (ReadFull r1 4) as [[r2 g2] e2] eqn:E2.
  destruct e2 as [e2|]; [destruct e2; discriminate|]. simpl.
  destruct (ReadFull r2 _) as [[r3 g3] e3] eqn:E3.
  destruct e3 as [e3|]; [destruct e3; discriminate|]. simpl.
  destruct (ReadFull r3 4) as [[r4 g4] e4] eqn:E4.
  destruct e4 as [e4|]; [destruct e4; discriminate|]. simpl.
  destruct (negb _); [discriminate|]. intros [= <- _].
  apply ReadFull_unread in E1, E2, E3, E4.
  destruct E1 as (U1 & _ & G1 & L1), E2 as (U2 & _ & _ & L2),
           E3 as (U3 & _ & _ & _), E4 as (U4 & _ & _ & L4).
  specialize (L1 eq_refl).
  assert (length g1 <= length (unread r)).
  { rewrite G1 at 1. rewrite length_firstn. lia. }
  rewrite U4, U3, U2, U1. rewrite !length_skipn. lia.
Qed.

(** The [for] loop of [chunks], started with the chunks appended so far. *)
Equations? loop (r : Reader) (chunks : list Chunk)
  : Reader * list Chunk * option error
  by wf (length (unread r)) lt :=
loop r chunks with inspect (readChunk r) := {
  | exist _ (Break r') _ => (r', chunks, None)
  | exist _ (Return r' err) _ => (r', chunks, Some err)
  | exist _ (Append r' c) H => loop r' (chunks ++ [c]) }.
Proof. eapply readChunk_Append_shorter; eassumption. Qed.

(** [chunks] *)
Definition chunks (p : Parser) : Parser * list Chunk * option error :=
  let chunks : list Chunk := [] in
  let '(p, b, err) := IsPNG p in
  if not_nil err then (p, chunks, err)
  else if negb b then (p, chunks, Some (errors_New "input not a PNG"))
  else
  let '(r, fileHdr, err) := ReadFull (br p) 8 in
  let p := set_br p r in
  let c := length fileHdr in
  if not_nil err || negb (c =? 8) then
    (p, chunks, Some (fmt_Errorf "unable to read header: %v" [arg_err err]))
  else
  let '(r, chunks, err) := loop (br p) chunks in
  (set_br p r, chunks, err).

(** [Parse] *)
Definition Parse (p : Parser) : Parser * option error :=
  let '(p, chunks, err) := chunks p in
  if not_nil err then (p, err)
  else (set_data p chunks, None).

(** [WalkChunks]; the iteratee is a closure, so it is given the state it
    captures and returns it with its verdict. *)
Fixpoint walk {S : Type} (fn : Chunk -> S -> S * bool) (data : list Chunk)
         (s : S) : S :=
  match data with
  | [] => s
  | ch :: rest =>
      let '(s, cont) := fn ch s in
      if negb cont then s else walk fn rest s
  end.

Definition WalkChunks {S : Type} (p : Parser) (fn : Chunk -> S -> S * bool)
           (s : S) : S :=
  walk fn (data p) s.

(** The map literal [passThrough] of [StripTags] and its lookup
    [_, ok := passThrough[k]]. *)
Definition passThrough : list (chunkType * bool) :=
  [(ChunkTypeHeader, true); (ChunkTypePalette, true);
   (ChunkTypeData, true); (ChunkTypeEnd, true)].

Fixpoint map_lookup (m : list (chunkType * bool)) (k : chunkType) : option bool :=
  match m with
  | [] => None
  | (k', v) :: m' => if chunkType_eqb k k' then Some v else map_lookup m' k
  end.

(** The iteratee of [StripTags]; it captures the pipe writer [w] and the
    variable [err]. *)
Definition stripChunk (ch : Chunk) (s : PipeWriter * option error)
  : (PipeWriter * option error) * bool :=
  let '(w, err) := s in
  match map_lookup passThrough (Type_ ch) with
  | Some _ =>
      let typeBytes : list byte :=
        match Type_ ch with
        | ChunkTypeHeader => ctHdr
        | ChunkTypePalette => ctPlte
        | ChunkTypeData => ctDat
        | ChunkTypeEnd => ctEnd
        | _ => []
        end in
      let '(w, e) := Write w (slice4 (Length ch)) in
      if not_nil e then
        ((w, Some (fmt_Errorf "unable to write chunk length: %v" [arg_err e])), false)
      else
      let '(w, e) := Write w typeBytes in
      if not_nil e then
        ((w, Some (fmt_Errorf "unable to write chunk type: %v" [arg_err e])), false)
      else
      let '(w, e) := Write w (Data ch) in
      if not_nil e then
        ((w, Some (fmt_Errorf "unable to write chunk data: %v" [arg_err e])), false)
      else
      let '(w, e) := Write w (slice4 (CRC ch)) in
      if not_nil e then
        ((w, Some (fmt_Errorf "unable to write chunk CRC: %v" [arg_err e])), false)
      else ((w, err), true)
  | None => ((w, err), true)
  end.

(** [StripTags]: the pipe after the writing goroutine has finished, for a
    consumer described by [demand].  [delivered] is what the returned
    reader yields, [closedWith] the error it ends with ([Some None] is a
    plain end of input). *)
Definition StripTags (p : Parser) (demand : option nat) : PipeWriter :=
  let w := Pipe demand in
  let '(w, err) := Write w pngHeader in
  if not_nil err then
    CloseWithError w (Some (fmt_Errorf "unable to write PNG header: %v" [arg_err err]))
  else
  let '(w, err) := WalkChunks p stripChunk (w, None) in
  CloseWithError w err.

(* ===================================================================== *)
(** ** The PNG container format and the registry, as reference points    *)
(* ===================================================================== *)

(** A chunk as it lies in a PNG stream: length, type code, data, CRC. *)
Record wireChunk : Type := mkWire {
  wLength : array4;
  wType : array4;
  wData : list byte;
  wCRC : array4
}.

Definition wire (w : wireChunk) : list byte :=
  slice4 (wLength w) ++ slice4 (wType w) ++ wData w ++ slice4 (wCRC w).

(** The length field counts the data bytes. *)
Definition wellFormed (w : wireChunk) : Prop :=
  length (wData w) = N.to_nat (Uint32_4 (wLength w)).

(** A PNG byte stream: the signature, then whole chunks. *)
Definition validPNG (s : list byte) : Prop :=
  exists ws : list wireChunk,
    Forall wellFormed ws /\ s = pngHeader ++ flat_map wire ws.

(** The [Chunk] that [chunks] builds from a chunk of the stream. *)
Definition parsed (w : wireChunk) : Chunk :=
  {| Length := wLength w;
     CRC := wCRC w;
     Type_ := getChunkType (slice4 (wType w));
     Data := wData w |}.

(** A parsed chunk holds as many data bytes as its length field says. *)
Definition chunkOK (c : Chunk) : Prop :=
  length (Data c) = N.to_nat (Uint32_4 (Length c)).

(** The fixed table of the registry: the [ct...] variables with the
    [ChunkType...] constant each stands for. *)
Definition registry : list (list byte * chunkType) :=
  [(ctHdr, ChunkTypeHeader); (ctPlte, ChunkTypePalette);
   (ctDat, ChunkTypeData); (ctEnd, ChunkTypeEnd);
   (ctBkgd, ChunkTypeBkgdColor); (ctChrm, ChunkTypeChromaticity);
   (ctDSig, ChunkTypeDigiSignal); (ctExif, ChunkTypeExif);
   (ctGama, ChunkTypeGamma); (ctHist, ChunkTypeHistogram);
   (ctIccp, ChunkTypeICC); (ctItxt, ChunkTypeTxtUTF8);
   (ctPhys, ChunkTypePxSize); (ctSbit, ChunkTypeSigBits);
   (ctSplt, ChunkTypeSugPalette); (ctSrgb, ChunkTypeRGB);
   (ctSter, ChunkTypeStereo); (ctText, ChunkTypeTxtISO8859);
   (ctTime, ChunkTypeTimeChanged); (ctTrns, ChunkTypeTransparency);
   (ctZtxt, ChunkTypeTxtCompressed)].

(** Exact byte equality of two codes. *)
Fixpoint bytes_Equal (a b : list byte) : bool :=
  match a, b with
  | [], [] => true
  | x :: a', y :: b' => Byte.eqb x y && bytes_Equal a' b'
  | _, _ => false
  end.

(** Classification as the specification words it: look the code up in the
    fixed table, [Unknown] when it is not there. *)
Definition classify (code : list byte) : chunkType :=
  match find (fun e => bytes_Equal (fst e) code) registry with
  | Some e => snd e
  | None => ChunkTypeUnknown
  end.

(** The type code the package has for a classification; there is none for
    [ChunkTypeUnknown], for which a [var typeBytes []byte] stays nil. *)
Definition typeCode (t : chunkType) : list byte :=
  match find (fun e => chunkType_eqb (snd e) t) registry with
  | Some e => fst e
  | None => []
  end.

(** The four critical kinds. *)
Definition isCritical (c : Chunk) : bool :=
  match Type_ c with
  | ChunkTypeHeader | ChunkTypePalette | ChunkTypeData | ChunkTypeEnd => true
  | _ => false
  end.

(** A chunk written out: length, type code, data, CRC. *)
Definition emitChunk (c : Chunk) : list byte :=
  slice4 (Length c) ++ typeCode (Type_ c) ++ Data c ++ slice4 (CRC c).

(** Re-emitting a parsed document after the signature. *)
Definition reemit (cs : list Chunk) : list byte :=
  pngHeader ++ flat_map emitChunk cs.

(** Big-endian value of four bytes, positionally. *)
Definition be32 (b0 b1 b2 b3 : byte) : N :=
  (Byte.to_N b0 * 2 ^ 24 + Byte.to_N b1 * 2 ^ 16
   + Byte.to_N b2 * 2 ^ 8 + Byte.to_N b3)%N.

(** Header decoding fails: it returns an error. *)
Definition headerDecodeFails (data : list byte) : Prop :=
  exists (hdr : headerChunk) (e : error), parseHeader data = Some (hdr, Some e).

(** Two readers with the same input ahead of them. *)
Definition sameInput (r1 r2 : Reader) : Prop :=
  unread r1 = unread r2 /\ srcerr r1 = srcerr r2.


(** Two passes through the loop body that end the same way. *)
Definition sameIteration (i1 i2 : iteration) : Prop :=
  match i1, i2 with
  | Append r1 c1, Append r2 c2 => sameInput r1 r2 /\ c1 = c2
  | Break r1, Break r2 => sameInput r1 r2
  | Return r1 e1, Return r2 e2 => sameInput r1 r2 /\ e1 = e2
  | _, _ => False
  end.

(** The stream form of a parsed chunk, with the type code of its
    classification. *)
Definition toWire (c : Chunk) : wireChunk :=
  {| wLength := Length c;
     wType := copy4 zero4 (typeCode (Type_ c));
     wData := Data c;
     wCRC := CRC c |}.

(** The parser's input is the byte stream [s], ending in a plain end of
    input. *)
Definition reads (p : Parser) (s : list byte) : Prop :=
  unread (br p) = s /\ srcerr (br p) = io_EOF.

(* ===================================================================== *)
(** ** Sample inputs                                                      *)
(* ===================================================================== *)

(** The chunks of a one-pixel greyscale image, with their CRCs, and two
    ancillary chunks: [tEXt], which the registry knows, and [oFFs], which
    it does not. *)
Definition demoIHDR : wireChunk :=
  {| wLength := (x00, x00, x00, x0d);
     wType := (x49, x48, x44, x52);
     wData := [x00; x00; x00; x01; x00; x00; x00; x01; x08; x00; x00; x00; x00];
     wCRC := (x3a, x7e, x9b, x55) |}.

Definition demoOFFs : wireChunk :=
  {| wLength := (x00, x00, x00, x09);
     wType := (x6f, x46, x46, x73);
     wData := [x00; x00; x00; x00; x00; x00; x00; x00; x00];
     wCRC := (xda, x2a, xb6, xce) |}.

Definition demoTEXT : wireChunk :=
  {| wLength := (x00, x00, x00, x0d);
     wType := (x74, x45, x58, x74);
     wData := [x43; x6f; x6d; x6d; x65; x6e; x74; x00; x68; x65; x6c; x6c; x6f];
     wCRC := (xe6, xff, xae, x24) |}.

Definition demoIDAT : wireChunk :=
  {| wLength := (x00, x00, x00, x0a);
     wType := (x49, x44, x41, x54);
     wData := [x78; xda; x63; x60; x00; x00; x00; x02; x00; x01];
     wCRC := (xe5, x27, xde, xfc) |}.

Definition demoIEND : wireChunk :=
  {| wLength := (x00, x00, x00, x00);
     wType := (x49, x45, x4e, x44);
     wData := [];
     wCRC := (xae, x42, x60, x82) |}.

Definition demoChunks : list wireChunk :=
  [demoIHDR; demoTEXT; demoIDAT; demoIEND].

Definition demoPNG : list byte := pngHeader ++ flat_map wire demoChunks.

(** The same image with an [oFFs] chunk in place of the text. *)
Definition offsChunks : list wireChunk :=
  [demoIHDR; demoOFFs; demoIDAT; demoIEND].

Definition offsPNG : list byte := pngHeader ++ flat_map wire offsChunks.

(** [demoPNG] cut off seven bytes into the data of its [tEXt] chunk. *)
Definition cutInData : list byte :=
  pngHeader ++ wire demoIHDR ++ slice4 (wLength demoTEXT)
  ++ slice4 (wType demoTEXT) ++ firstn 7 (wData demoTEXT).

(** [demoPNG] cut off right after the length field of its [tEXt] chunk. *)
Definition cutAfterLength : list byte :=
  pngHeader ++ wire demoIHDR ++ slice4 (wLength demoTEXT).

(** A text file. *)
Definition textFile : list byte := Eval cbv in list_byte_of_string "hello, world".

(** A parser that already holds a document and is given a text file. *)
Definition staleParser : Parser :=
  {| Path := "notes.txt";
     br := NewReader textFile io_EOF;
     data := [parsed demoIHDR; parsed demoIEND] |}.

(** The header payload [00000010 00000020 08 06 00 00 00]. *)
Definition demoHeaderData : list byte :=
  [x00; x00; x00; x10; x00; x00; x00; x20; x08; x06; x00; x00; x00].

(* ===================================================================== *)
(** ** Further reference points for the parser                            *)
(* ===================================================================== *)

(** What may follow the last whole chunk of an input that [chunks] still
    accepts: nothing; a length field alone; a length field and a type code
    of a chunk that declares data; or a chunk that lacks only its CRC. *)
Definition silentTail (t : list byte) : Prop :=
  t = [] \/
  (exists len : array4, t = slice4 len) \/
  (exists len ty : array4,
      t = slice4 len ++ slice4 ty /\ 0 < N.to_nat (Uint32_4 len)) \/
  (exists (len ty : array4) (d : list byte),
      t = slice4 len ++ slice4 ty ++ d /\
      length d = N.to_nat (Uint32_4 len)).

(** The errors [chunks] wraps a failed read of a chunk field in. *)
Definition chunkReadError (field : string) (cause : error) : error :=
  fmt_Errorf ("unable to read chunk " ++ field ++ ": %v") [arg_err (Some cause)].

(** The chunk fields [chunks] names in its errors. *)
Definition chunkFields : list string := ["length"; "type"; "data"; "CRC"]%string.

(** A pipe writer, started with [d0] delivered, a consumer that takes [k0]
    more bytes and the close state [c0], after all of [pre] was written
    and taken. *)
Definition wrote (d0 : list byte) (k0 : nat) (c0 : option (option error))
           (w : PipeWriter) (pre : list byte) : Prop :=
  delivered w = d0 ++ pre /\ demand w = Some (k0 - length pre) /\
  length pre <= k0 /\ closedWith w = c0.

(** The same writer after a write failed while [pre] was being written:
    the consumer has taken the first [k0] bytes of [pre] and no more. *)
Definition stopped (d0 : list byte) (k0 : nat) (c0 : option (option error))
           (w : PipeWriter) (pre : list byte) : Prop :=
  delivered w = d0 ++ firstn k0 pre /\ k0 < length pre /\ closedWith w = c0.

(** What [StripTags] writes for one chunk. *)
Definition stripped (ch : Chunk) : list byte :=
  if isCritical ch then emitChunk ch else [].

(* ===================================================================== *)
(** ** Printing: [String], [PrintHeader] and the command                  *)
(* ===================================================================== *)

(** [func (ct chunkType) String() string] *)
Definition chunkType_String (ct : chunkType) : string :=
  match ct with
  | ChunkTypeHeader => "IHDR (Header)"
  | ChunkTypePalette => "PLTE (Pallette)"
  | ChunkTypeData => "IDAT (Data)"
  | ChunkTypeEnd => "IEND (Image End)"
  | ChunkTypeBkgdColor => "bKGD (Default Background Color)"
  | ChunkTypeChromaticity => "cHRM (Chromaticity)"
  | ChunkTypeDigiSignal => "dSIG (Digital Signatures)"
  | ChunkTypeExif => "eXIf (Exif)"
  | ChunkTypeGamma => "gAMA (Gamma)"
  | ChunkTypeHistogram => "hIST (Color Histogram)"
  | ChunkTypeICC => "iCCP (ICC Color Profile)"
  | ChunkTypeTxtUTF8 => "iTXt (UTF-8 Keyword Text)"
  | ChunkTypePxSize => "pHYs (Intended Pixel Size)"
  | ChunkTypeSigBits => "sBIT (Color-Accuracy)"
  | ChunkTypeSugPalette => "sPLT (Suggested Palette)"
  | ChunkTypeRGB => "sRGB (sRGB Color Space)"
  | ChunkTypeStereo => "sTER (Stereo-Image Indicator)"
  | ChunkTypeTxtISO8859 => "tEXt (ISO/IEC 885901 Text)"
  | ChunkTypeTimeChanged => "tIME (Last Changed Time)"
  | ChunkTypeTransparency => "tRNS (Transparency)"
  | ChunkTypeTxtCompressed => "zTXt (Compressed Text)"
  | ChunkTypeUnknown => "Unknown"
  end.

(** An operand of a [fmt.Printf]-style call. *)
Inductive operand : Type :=
| op_string (s : string)
| op_uint32 (n : N)
| op_byte (b : byte)
| op_bytes (bs : list byte)
| op_chunkType (t : chunkType)
| op_error (e : option error).

(** One [fmt.Fprintf] call: the format string as the source has it, and
    the operands. *)
Record printed : Type := mkPrinted {
  format : string;
  operands : list operand
}.

(** Standard output and standard error, as the calls made on each. *)
Record Console : Type := mkConsole {
  stdout : list printed;
  stderr : list printed
}.

Definition Printf (c : Console) (f : string) (ops : list operand) : Console :=
  {| stdout := stdout c ++ [{| format := f; operands := ops |}];
     stderr := stderr c |}.

Definition Eprintf (c : Console) (f : string) (ops : list operand) : Console :=
  {| stdout := stdout c;
     stderr := stderr c ++ [{| format := f; operands := ops |}] |}.

(** The body of the loop of [PrintHeader] for one chunk; [None] is a panic
    of [parseHeader], whose error is dropped. *)
Definition printHeaderChunk (path : string) (ch : Chunk) (c : Console)
  : option Console :=
  if chunkType_eqb (Type_ ch) ChunkTypeHeader then
    let c := Printf c "%s Header\n" [op_string path] in
    match parseHeader (Data ch) with
    | None => None
    | Some (hdr, _) =>
        let c := Printf c "Width\t%d\n" [op_uint32 (Width hdr)] in
        let c := Printf c "Height\t%d\n" [op_uint32 (Height hdr)] in
        let c := Printf c "Bit Depth\t%d\n" [op_byte (BitDepth hdr)] in
        let c := Printf c "Color Type\t%d\n" [op_byte (ColorType hdr)] in
        let c := Printf c "Compression Method\t%d\n"
                        [op_byte (CompressionMethod hdr)] in
        let c := Printf c "Filter Method\t%d\n" [op_byte (BitDepth hdr)] in
        let c := Printf c "Interlace Method\t%d\n"
                        [op_byte (InterlaceMethod hdr)] in
        Some (Printf c "\n" [])
    end
  else Some c.

(** [PrintHeader] *)
Fixpoint printHeaders (path : string) (chs : list Chunk) (c : Console)
  : option Console :=
  match chs with
  | [] => Some c
  | ch :: rest =>
      match printHeaderChunk path ch c with
      | None => None
      | Some c => printHeaders path rest c
      end
  end.

Definition PrintHeader (p : Parser) (c : Console) : option Console :=
  printHeaders (Path p) (data p) c.

(** The iteratee [main] passes to [WalkChunks] when [-tags] is given; it
    captures the console. *)
Definition tagsIteratee (ch : Chunk) (c : Console) : Console * bool :=
  let c :=
    if negb (chunkType_eqb (Type_ ch) ChunkTypeData
             || chunkType_eqb (Type_ ch) ChunkTypeHeader
             || chunkType_eqb (Type_ ch) ChunkTypeEnd)
    then Printf c "  %s\n" [op_chunkType (Type_ ch)]
    else c in
  let c :=
    if chunkType_eqb (Type_ ch) ChunkTypeTxtUTF8
       || chunkType_eqb (Type_ ch) ChunkTypeTxtISO8859
    then Printf c "   %s\n" [op_bytes (Data ch)]
    else c in
  (c, true).

(** The body of the loop of [main] over the parsers. *)
Definition mainStep (showTags : bool) (p : Parser) (c : Console)
  : Parser * Console :=
  let '(p, b, err) := IsPNG p in
  if negb b || not_nil err then
    (p, Eprintf c "%s is not a PNG\n" [op_string (Path p)])
  else
  let '(p, err) := Parse p in
  if not_nil err then
    (p, Eprintf c "problem parsing %s: %v" [op_string (Path p); op_error err])
  else if showTags then
    let c := Printf c "%s tags:\n" [op_string (Path p)] in
    (p, WalkChunks p tagsIteratee c)
  else (p, c).

(** The loop of [main]: every parser in turn, on one console. *)
Fixpoint mainLoop (showTags : bool) (parsers : list Parser) (c : Console)
  : list Parser * Console :=
  match parsers with
  | [] => ([], c)
  | p :: rest =>
      let '(p, c) := mainStep showTags p c in
      let '(rest, c) := mainLoop showTags rest c in
      (p :: rest, c)
  end.

(** What the tags iteratee prints for one chunk. *)
Definition tagLines (ch : Chunk) : list printed :=
  (if isCritical ch && negb (chunkType_eqb (Type_ ch) ChunkTypePalette)
   then []
   else [{| format := "  %s\n"; operands := [op_chunkType (Type_ ch)] |}])
  ++
  (match Type_ ch with
   | ChunkTypeTxtUTF8 | ChunkTypeTxtISO8859 =>
       [{| format := "   %s\n"; operands := [op_bytes (Data ch)] |}]
   | _ => []
   end).

(** The input ahead of the parser starts with the PNG signature. *)
Definition signatureAhead (p : Parser) : Prop :=
  exists s, unread (br p) = pngHeader ++ s.

(** The line the tags iteratee prints for a palette chunk. *)
Definition paletteLine : printed :=
  {| format := "  %s\n"; operands := [op_chunkType ChunkTypePalette] |}.

Definition isPalette (c : Chunk) : bool :=
  chunkType_eqb (Type_ c) ChunkTypePalette.

Definition isHeader (c : Chunk) : bool :=
  chunkType_eqb (Type_ c) ChunkTypeHeader.


(** The line [main] prints on standard error for an input that [IsPNG]
    turns down. *)
Definition notPNGLine (p : Parser) : printed :=
  {| format := "%s is not a PNG\n"; operands := [op_string (Path p)] |}.

(* ===================================================================== *)
(** ** Library facts                                                      *)
(* ===================================================================== *)

Lemma to_N_inj (x y : byte) : Byte.to_N x = Byte.to_N y -> x = y.
Proof.
  intros H. pose proof (Byte.of_to_N x) as Hx. rewrite H, Byte.of_to_N in Hx.
  congruence.
Qed.

Lemma bytes_Compare_refl (a : list byte) : bytes_Compare a a = 0%Z.
Proof.
  induction a as [|x a IH]; simpl; [reflexivity|].
  rewrite N.compare_refl. exact IH.
Qed.

Lemma bytes_Compare_eq (a b : list byte) : bytes_Compare a b = 0%Z -> a = b.
Proof.
  revert b. induction a as [|x a IH]; intros [|y b]; simpl; try discriminate;
    [reflexivity|].
  destruct (N.compare (Byte.to_N x) (Byte.to_N y)) eqn:E; try discriminate.
  intros H. apply N.compare_eq in E. apply to_N_inj in E.
  f_equal; auto.
Qed.

Lemma bytes_Compare_eqb (a b : list byte) :
  (bytes_Compare a b =? 0)%Z = bytes_Equal a b.
Proof.
  revert b. induction a as [|x a IH]; intros [|y b]; simpl; try reflexivity.
  destruct (Byte.eqb x y) eqn:E.
  - apply Byte.byte_dec_bl in E. subst y. rewrite N.compare_refl. apply IH.
  - destruct (N.compare (Byte.to_N x) (Byte.to_N y)) eqn:C; try reflexivity.
    apply N.compare_eq in C. apply to_N_inj in C. subst y.
    rewrite (Byte.byte_dec_lb eq_refl) in E. discriminate.
Qed.

Lemma bytes_Compare_sym0 (a b : list byte) :
  (bytes_Compare a b =? 0)%Z = (bytes_Compare b a =? 0)%Z.
Proof.
  destruct (bytes_Compare a b =? 0)%Z eqn:E1, (bytes_Compare b a =? 0)%Z eqn:E2;
    try reflexivity.
  - apply Z.eqb_eq, bytes_Compare_eq in E1. subst.
    rewrite bytes_Compare_refl in E2. discriminate.
  - apply Z.eqb_eq, bytes_Compare_eq in E2. subst.
    rewrite bytes_Compare_refl in E1. discriminate.
Qed.

(** Bits that do not overlap: [|] is [+]. *)
Lemma lor_shiftl_add (hi lo k : N) :
  (lo < 2 ^ k)%N -> N.lor lo (N.shiftl hi k) = (hi * 2 ^ k + lo)%N.
Proof.
  intros Hlo.
  assert (Hd : N.land lo (N.shiftl hi k) = 0%N).
  { apply N.bits_inj. intros i. rewrite N.land_spec, N.bits_0.
    destruct (N.lt_ge_cases i k) as [Hi|Hi].
    - rewrite N.shiftl_spec_low by exact Hi. apply andb_false_r.
    - destruct (N.eq_dec lo 0) as [->|Hnz]; [now rewrite N.bits_0|].
      rewrite (N.bits_above_log2 lo i); [reflexivity|].
      assert (N.log2 lo < k)%N by (apply N.log2_lt_pow2; [lia|exact Hlo]).
      eapply N.lt_le_trans; eassumption. }
  rewrite <- N.lxor_lor by exact Hd.
  rewrite <- N.add_nocarry_lxor by exact Hd.
  rewrite N.shiftl_mul_pow2. apply N.add_comm.
Qed.

Lemma Uint32_4_be32 (b0 b1 b2 b3 : byte) :
  Uint32_4 (b0, b1, b2, b3) = be32 b0 b1 b2 b3.
Proof.
  unfold Uint32_4, be32, or32, shl32, u32.
  pose proof (Byte.to_N_bounded b0). pose proof (Byte.to_N_bounded b1).
  pose proof (Byte.to_N_bounded b2). pose proof (Byte.to_N_bounded b3).
  rewrite !N.shiftl_mul_pow2.
  rewrite !N.mod_small by (change (2 ^ 32)%N with 4294967296%N;
                           change (2 ^ 24)%N with 16777216%N;
                           change (2 ^ 16)%N with 65536%N;
                           change (2 ^ 8)%N with 256%N; lia).
  rewrite <- !N.shiftl_mul_pow2.
  rewrite (lor_shiftl_add (Byte.to_N b2) (Byte.to_N b3) 8%N)
    by (change (2 ^ 8)%N with 256%N; lia).
  rewrite (lor_shiftl_add (Byte.to_N b1) _ 16%N)
    by (change (2 ^ 16)%N with 65536%N; change (2 ^ 8)%N with 256%N; lia).
  rewrite (lor_shiftl_add (Byte.to_N b0) _ 24%N)
    by (change (2 ^ 24)%N with 16777216%N; change (2 ^ 16)%N with 65536%N;
        change (2 ^ 8)%N with 256%N; lia).
  rewrite !N.shiftl_mul_pow2, !N.add_assoc. reflexivity.
Qed.

Lemma Uint32_slice4 (a : array4) : Uint32 (slice4 a) = Some (Uint32_4 a).
Proof. destruct a as [[[a0 a1] a2] a3]. reflexivity. Qed.

Lemma length_slice4 (a : array4) : length (slice4 a) = 4.
Proof. destruct a as [[[a0 a1] a2] a3]. reflexivity. Qed.

Lemma copy4_slice4 (a b : array4) : copy4 a (slice4 b) = b.
Proof.
  destruct a as [[[a0 a1] a2] a3], b as [[[b0 b1] b2] b3]. reflexivity.
Qed.

Lemma filled_exact (n : nat) (bs : list byte) :
  length bs = n -> filled n bs = bs.
Proof.
  intros <-. unfold filled. rewrite firstn_all, Nat.sub_diag. apply app_nil_r.
Qed.

(* ===================================================================== *)
(** ** The buffered reader                                                *)
(* ===================================================================== *)

Lemma sameInput_refl (r : Reader) : sameInput r r.
Proof. split; reflexivity. Qed.

Lemma sameInput_sym (r1 r2 : Reader) : sameInput r1 r2 -> sameInput r2 r1.
Proof. intros [H1 H2]. split; congruence. Qed.

Lemma sameInput_trans (r1 r2 r3 : Reader) :
  sameInput r1 r2 -> sameInput r2 r3 -> sameInput r1 r3.
Proof. intros [H1 H2] [H3 H4]. split; congruence. Qed.

Lemma fill_unread (r : Reader) : unread (fill r) = unread r.
Proof.
  unfold unread, fill. simpl. rewrite <- app_assoc, firstn_skipn. reflexivity.
Qed.

(** [Peek] leaves the input where it is. *)
Lemma Peek_sameInput (r r' : Reader) (n : nat) (b : list byte)
      (err : option error) :
  Peek r n = (r', b, err) -> sameInput r' r.
Proof.
  unfold Peek.
  set (r0 := if length (buffered r) <? n then fill r else r).
  assert (H : sameInput r0 r).
  { unfold r0. destruct (length (buffered r) <? n);
      [split; [apply fill_unread | reflexivity] | apply sameInput_refl]. }
  destruct (length (buffered r0) <? n); intros [= <- _ _]; exact H.
Qed.

(** What [Peek] returns, in terms of the input ahead. *)
Lemma Peek_result (r : Reader) (n : nat) :
  n <= defaultBufSize ->
  snd (fst (Peek r n)) = firstn n (unread r) /\
  snd (Peek r n) = if length (unread r) <? n then Some (srcerr r) else None.
Proof.
  intros Hn. unfold Peek, unread.
  destruct (length (buffered r) <? n) eqn:Eb.
  - apply Nat.ltb_lt in Eb. unfold fill. cbn [buffered source srcerr].
    set (free := defaultBufSize - length (buffered r)).
    assert (Hfree : n - length (buffered r) <= free) by (unfold free; lia).
    rewrite !length_app, length_firstn.
    destruct (length (buffered r) + Nat.min free (length (source r)) <? n) eqn:E2.
    + apply Nat.ltb_lt in E2.
      assert (Hs : length (source r) < free) by lia.
      rewrite firstn_all2 by lia. cbn [fst snd].
      rewrite firstn_all2 by (rewrite length_app; lia).
      split; [reflexivity|].
      destruct (length (buffered r) + length (source r) <? n) eqn:E3;
        [reflexivity|]. apply Nat.ltb_ge in E3. lia.
    + apply Nat.ltb_ge in E2. cbn [fst snd].
      rewrite !firstn_app, firstn_firstn.
      replace (Nat.min (n - length (buffered r)) free)
        with (n - length (buffered r)) by lia.
      split; [reflexivity|].
      destruct (length (buffered r) + length (source r) <? n) eqn:E3;
        [|reflexivity]. apply Nat.ltb_lt in E3. lia.
  - rewrite Eb. apply Nat.ltb_ge in Eb. cbn [fst snd].
    rewrite firstn_app. replace (n - length (buffered r)) with 0 by lia.
    rewrite firstn_O, app_nil_r. split; [reflexivity|].
    rewrite length_app.
    destruct (length (buffered r) + length (source r) <? n) eqn:E3;
      [|reflexivity]. apply Nat.ltb_lt in E3. lia.
Qed.

(** [io.ReadFull] sees only the input ahead. *)
Lemma ReadFull_sameInput (r1 r2 : Reader) (n : nat) :
  sameInput r1 r2 ->
  sameInput (fst (fst (ReadFull r1 n))) (fst (fst (ReadFull r2 n))) /\
  snd (fst (ReadFull r1 n)) = snd (fst (ReadFull r2 n)) /\
  snd (ReadFull r1 n) = snd (ReadFull r2 n).
Proof.
  intros [Hu He]. unfold ReadFull. rewrite <- Hu, <- He.
  destruct (n =? 0); [repeat split; assumption|].
  destruct (n <=? length (unread r1)).
  - cbn [fst snd]. repeat split; try assumption.
    rewrite !advance_unread. congruence.
  - destruct (unread r1) as [|b rest] eqn:Ea; cbn [fst snd].
    + repeat split; congruence.
    + repeat split; try assumption. rewrite !advance_unread. congruence.
Qed.

(** Reading exactly the bytes ahead. *)
Lemma ReadFull_exact (r : Reader) (pre rest : list byte) :
  unread r = pre ++ rest ->
  exists r', ReadFull r (length pre) = (r', pre, None) /\
             unread r' = rest /\ srcerr r' = srcerr r.
Proof.
  intros H. unfold ReadFull.
  destruct (length pre =? 0) eqn:E0.
  - apply Nat.eqb_eq in E0. destruct pre; [|discriminate].
    exists r. auto.
  - rewrite H, length_app.
    replace (length pre <=? length pre + length rest) with true
      by (symmetry; apply Nat.leb_le; lia).
    exists (advance r (length pre)).
    rewrite advance_unread, H, firstn_app, skipn_app, Nat.sub_diag, firstn_all,
      skipn_all. simpl. rewrite app_nil_r. auto.
Qed.

(** Reading at the end of the input. *)
Lemma ReadFull_end (r : Reader) (n : nat) :
  unread r = [] -> 0 < n -> ReadFull r n = (r, [], Some (srcerr r)).
Proof.
  intros H Hn. unfold ReadFull. rewrite H.
  destruct (n =? 0) eqn:E0; [apply Nat.eqb_eq in E0; lia|].
  destruct (n <=? length (@nil byte)) eqn:E1;
    [apply Nat.leb_le in E1; simpl in E1; lia|]. reflexivity.
Qed.

(** Reading more than there is, with something there. *)
Lemma ReadFull_short (r : Reader) (n : nat) :
  unread r <> [] -> length (unread r) < n ->
  exists r', ReadFull r n = (r', unread r, Some (unexpected (srcerr r))) /\
             unread r' = [] /\ srcerr r' = srcerr r.
Proof.
  intros Hne Hlt. unfold ReadFull.
  destruct (n =? 0) eqn:E0; [apply Nat.eqb_eq in E0; lia|].
  destruct (n <=? length (unread r)) eqn:E1; [apply Nat.leb_le in E1; lia|].
  destruct (unread r) as [|b rest] eqn:Ea; [congruence|].
  exists (advance r (length (b :: rest))).
  rewrite advance_unread, Ea, skipn_all. auto.
Qed.

(* ===================================================================== *)
(** ** The chunk loop                                                     *)
(* ===================================================================== *)

Lemma loop_step (r : Reader) (acc : list Chunk) :
  loop r acc =
  match readChunk r with
  | Append r' c => loop r' (acc ++ [c])
  | Break r' => (r', acc, None)
  | Return r' err => (r', acc, Some err)
  end.
Proof.
  funelim (loop r acc).
  - rewrite H. reflexivity.
  - rewrite e. reflexivity.
  - rewrite e. reflexivity.
Qed.

(** Names the results of the next [io.ReadFull] of both readers and
    identifies what they hand out. *)
Ltac read_both H :=
  match type of H with
  | sameInput ?a ?b =>
      match goal with
      | |- context [ReadFull a ?n] =>
          let S' := fresh "S" in
          let G := fresh "G" in
          let E := fresh "E" in
          destruct (ReadFull_sameInput a b n H) as (S' & G & E);
          destruct (ReadFull a n) as [[? ?] ?];
          destruct (ReadFull b n) as [[? ?] ?];
          cbn [fst snd] in S', G, E; subst
      end
  end.

Lemma readChunk_sameInput (r1 r2 : Reader) :
  sameInput r1 r2 -> sameIteration (readChunk r1) (readChunk r2).
Proof.
  intros S. unfold readChunk.
  read_both S.
  match goal with |- context [is_EOF ?e] => destruct e as [[]|] end;
    cbn [is_EOF not_nil]; try (cbn; auto; fail).
  read_both S0.
  match goal with |- context [is_EOF ?e] => destruct e as [[]|] end;
    cbn [is_EOF not_nil]; try (cbn; auto; fail).
  read_both S1.
  match goal with |- context [is_EOF ?e] => destruct e as [[]|] end;
    cbn [is_EOF not_nil]; try (cbn; auto; fail).
  read_both S2.
  match goal with |- context [is_EOF ?e] => destruct e as [[]|] end;
    cbn [is_EOF not_nil]; try (cbn; auto; fail).
  destruct (negb _); cbn; auto.
Qed.

(** The loop sees only the input ahead. *)
Lemma loop_sameInput (r1 r2 : Reader) (acc : list Chunk) :
  sameInput r1 r2 ->
  sameInput (fst (fst (loop r1 acc))) (fst (fst (loop r2 acc))) /\
  snd (fst (loop r1 acc)) = snd (fst (loop r2 acc)) /\
  snd (loop r1 acc) = snd (loop r2 acc).
Proof.
  revert r2. funelim (loop r1 acc); intros r2 S;
    rewrite (loop_step r2);
    pose proof (readChunk_sameInput _ _ S) as HS;
    match goal with E : readChunk _ = _ |- _ => rewrite E in HS end;
    destruct (readChunk r2); cbn in HS; try contradiction.
  - destruct HS as [S' <-]. auto.
  - cbn. auto.
  - destruct HS as [S' <-]. cbn. auto.
Qed.

(** One whole chunk ahead: the loop body appends it. *)
Lemma readChunk_wire (r : Reader) (w : wireChunk) (rest : list byte) :
  wellFormed w -> unread r = wire w ++ rest ->
  exists r', readChunk r = Append r' (parsed w) /\
             unread r' = rest /\ srcerr r' = srcerr r.
Proof.
  intros Hw Hu. unfold wire in Hu. rewrite <- !app_assoc in Hu.
  unfold readChunk.
  destruct (ReadFull_exact r _ _ Hu) as (r1 & E1 & U1 & S1).
  rewrite length_slice4 in E1. rewrite E1. cbn [is_EOF not_nil].
  destruct (ReadFull_exact r1 _ _ U1) as (r2 & E2 & U2 & S2).
  rewrite length_slice4 in E2. rewrite E2. cbn [is_EOF not_nil].
  cbn [Length set_Length set_Type zeroChunk].
  rewrite (copy4_slice4 zero4 (wLength w)).
  destruct (ReadFull_exact r2 _ _ U2) as (r3 & E3 & U3 & S3).
  rewrite Hw in E3. rewrite E3. cbn [is_EOF not_nil].
  destruct (ReadFull_exact r3 _ _ U3) as (r4 & E4 & U4 & S4).
  rewrite length_slice4 in E4. rewrite E4. cbn [is_EOF not_nil].
  rewrite length_slice4. cbn [Nat.eqb negb].
  exists r4. split; [|split; [assumption|congruence]].
  f_equal. unfold parsed, set_CRC, set_Data, set_Type, set_Length.
  cbn [Length CRC Type_ Data zeroChunk].
  rewrite !copy4_slice4.
  rewrite (filled_exact 4) by apply length_slice4.
  rewrite filled_exact by (unfold wellFormed in Hw; congruence).
  reflexivity.
Qed.

(** Whole chunks ahead: the loop appends them all, in order. *)
Lemma loop_wire (ws : list wireChunk) :
  Forall wellFormed ws ->
  forall (r : Reader) (acc : list Chunk) (rest : list byte),
    unread r = flat_map wire ws ++ rest ->
    exists r', loop r acc = loop r' (acc ++ map parsed ws) /\
               unread r' = rest /\ srcerr r' = srcerr r.
Proof.
  induction 1 as [|w ws Hw Hws IH]; intros r acc rest Hu.
  - exists r. cbn. rewrite app_nil_r. auto.
  - cbn [flat_map] in Hu. rewrite <- app_assoc in Hu.
    destruct (readChunk_wire r w _ Hw Hu) as (r1 & E1 & U1 & S1).
    destruct (IH r1 (acc ++ [parsed w]) rest U1) as (r2 & E2 & U2 & S2).
    exists r2. rewrite loop_step, E1, E2. cbn [map].
    rewrite <- app_assoc. cbn. split; [reflexivity|split; congruence].
Qed.

(** Nothing ahead and a plain end of input: the loop stops. *)
Lemma loop_end (r : Reader) (acc : list Chunk) :
  unread r = [] -> srcerr r = io_EOF -> loop r acc = (r, acc, None).
Proof.
  intros Hu He. rewrite loop_step. unfold readChunk.
  rewrite ReadFull_end by (auto; lia). rewrite He. reflexivity.
Qed.

(* ===================================================================== *)
(** ** [IsPNG], [chunks] and [Parse]                                      *)
(* ===================================================================== *)

Lemma Peek_spec (r : Reader) (n : nat) :
  n <= defaultBufSize ->
  exists r',
    Peek r n = (r', firstn n (unread r),
                if length (unread r) <? n then Some (srcerr r) else None) /\
    sameInput r' r.
Proof.
  intros Hn. destruct (Peek r n) as [[r' b] e] eqn:E.
  destruct (Peek_result r n Hn) as [Hb He]. rewrite E in Hb, He.
  cbn [fst snd] in Hb, He. subst b e.
  exists r'. split; [reflexivity|]. eapply Peek_sameInput; eassumption.
Qed.

Lemma eight_le_bufsize : 8 <= defaultBufSize.
Proof. unfold defaultBufSize. lia. Qed.

(** [IsPNG] in terms of the input ahead. *)
Lemma IsPNG_spec (p : Parser) :
  exists r',
    sameInput r' (br p) /\
    IsPNG p =
    (set_br p r',
     if length (unread (br p)) <? 8 then false
     else bytes_Equal pngHeader (firstn 8 (unread (br p))),
     if length (unread (br p)) <? 8 then Some (srcerr (br p)) else None).
Proof.
  unfold IsPNG.
  destruct (Peek_spec (br p) 8 eight_le_bufsize) as (r' & E & S).
  exists r'. split; [exact S|]. rewrite E.
  destruct (length (unread (br p)) <? 8); cbn [not_nil]; [reflexivity|].
  rewrite bytes_Compare_eqb. reflexivity.
Qed.

Lemma bytes_Equal_eq (a b : list byte) : bytes_Equal a b = true <-> a = b.
Proof.
  rewrite <- bytes_Compare_eqb. split.
  - intros H. apply bytes_Compare_eq, Z.eqb_eq, H.
  - intros <-. rewrite bytes_Compare_refl. reflexivity.
Qed.

(** A signature ahead: [chunks] consumes it and runs the loop on what
    follows. *)
Lemma chunks_signature (p : Parser) (s : list byte) :
  unread (br p) = pngHeader ++ s ->
  exists r0,
    unread r0 = s /\ srcerr r0 = srcerr (br p) /\
    chunks p = (set_br p (fst (fst (loop r0 []))),
                snd (fst (loop r0 [])), snd (loop r0 [])).
Proof.
  intros Hu. unfold chunks.
  destruct (IsPNG_spec p) as (r1 & [U1 S1] & E1). rewrite E1, Hu.
  replace (length (pngHeader ++ s) <? 8) with false
    by (symmetry; apply Nat.ltb_ge; rewrite length_app; cbn; lia).
  cbn [not_nil].
  replace (firstn 8 (pngHeader ++ s)) with pngHeader by reflexivity.
  replace (bytes_Equal pngHeader pngHeader) with true by reflexivity.
  cbn [negb br set_br].
  rewrite Hu in U1.
  destruct (ReadFull_exact r1 pngHeader s U1) as (r0 & E0 & U0 & S0).
  change (length pngHeader) with 8 in E0. rewrite E0.
  cbn [not_nil length Nat.eqb negb orb pngHeader br set_br].
  exists r0. split; [exact U0|]. split; [congruence|].
  destruct (loop r0 []) as [[r cs] e]. reflexivity.
Qed.

(** Eight bytes ahead that are not the signature: [chunks] fails before
    reading anything. *)
Lemma chunks_not_png (p : Parser) :
  8 <= length (unread (br p)) ->
  firstn 8 (unread (br p)) <> pngHeader ->
  exists r',
    sameInput r' (br p) /\
    chunks p = (set_br p r', [], Some (errors_New "input not a PNG")).
Proof.
  intros Hlen Hne. unfold chunks.
  destruct (IsPNG_spec p) as (r1 & S1 & E1). rewrite E1.
  replace (length (unread (br p)) <? 8) with false
    by (symmetry; apply Nat.ltb_ge; exact Hlen).
  cbn [not_nil].
  destruct (bytes_Equal pngHeader (firstn 8 (unread (br p)))) eqn:Eq.
  - apply bytes_Equal_eq in Eq. congruence.
  - cbn [negb]. exists r1. auto.
Qed.

(** [chunks] sees only the input ahead. *)
Lemma chunks_sameInput (p1 p2 : Parser) :
  sameInput (br p1) (br p2) ->
  sameInput (br (fst (fst (chunks p1)))) (br (fst (fst (chunks p2)))) /\
  snd (fst (chunks p1)) = snd (fst (chunks p2)) /\
  snd (chunks p1) = snd (chunks p2).
Proof.
  intros S. unfold chunks.
  destruct (IsPNG_spec p1) as (r1 & S1 & E1).
  destruct (IsPNG_spec p2) as (r2 & S2 & E2).
  rewrite E1, E2. destruct S as [Hu He]. rewrite <- Hu, <- He.
  assert (S12 : sameInput r1 r2).
  { eapply sameInput_trans; [exact S1|].
    eapply sameInput_trans; [split; eassumption|].
    apply sameInput_sym, S2. }
  destruct (length (unread (br p1)) <? 8); cbn [not_nil fst snd br set_br];
    [auto|].
  destruct (bytes_Equal pngHeader (firstn 8 (unread (br p1))));
    cbn [negb fst snd br set_br]; [|auto].
  destruct (ReadFull_sameInput r1 r2 8 S12) as (S' & G & E).
  destruct (ReadFull r1 8) as [[a1 g1] e1], (ReadFull r2 8) as [[a2 g2] e2].
  cbn [fst snd] in S', G, E. subst g2 e2.
  destruct (not_nil e1 || negb (length g1 =? 8)); cbn [fst snd br set_br];
    [auto|].
  destruct (loop_sameInput a1 a2 [] S') as (S'' & C & E').
  destruct (loop a1 []) as [[b1 c1] x1], (loop a2 []) as [[b2 c2] x2].
  cbn [fst snd br set_br] in *. auto.
Qed.

(** [Parse] in terms of [chunks]. *)
Lemma Parse_chunks (p : Parser) :
  Parse p =
  match snd (chunks p) with
  | Some e => (fst (fst (chunks p)), Some e)
  | None => (set_data (fst (fst (chunks p))) (snd (fst (chunks p))), None)
  end.
Proof.
  unfold Parse. destruct (chunks p) as [[p' cs] [e|]]; reflexivity.
Qed.

(* ===================================================================== *)
(** ** Input that ends inside a chunk                                     *)
(* ===================================================================== *)

(** The input ends after a length field, or inside the type code. *)
Lemma readChunk_short_type (r : Reader) (len : array4) (part : list byte) :
  unread r = slice4 len ++ part -> length part < 4 -> srcerr r = io_EOF ->
  exists r',
    unread r' = [] /\ srcerr r' = io_EOF /\
    readChunk r =
    match part with
    | [] => Break r'
    | _ :: _ =>
        Return r' (fmt_Errorf "unable to read chunk type: %v"
                              [arg_err (Some io_ErrUnexpectedEOF)])
    end.
Proof.
  intros Hu Hlen He. unfold readChunk.
  destruct (ReadFull_exact r _ _ Hu) as (r1 & E1 & U1 & S1).
  rewrite length_slice4 in E1. rewrite E1. cbn [is_EOF not_nil].
  destruct part as [|b part].
  - rewrite (ReadFull_end r1 4 U1) by lia.
    rewrite S1, He. cbn [is_EOF]. exists r1. split; [|split]; congruence.
  - destruct (ReadFull_short r1 4) as (r2 & E2 & U2 & S2);
      [rewrite U1; discriminate | rewrite U1; exact Hlen |].
    rewrite E2, S1, He. cbn [unexpected is_EOF not_nil].
    exists r2. split; [|split]; congruence.
Qed.

(** The input ends after a type code, or inside the data. *)
Lemma readChunk_short_data (r : Reader) (len ty : array4) (part : list byte) :
  unread r = slice4 len ++ slice4 ty ++ part ->
  length part < N.to_nat (Uint32_4 len) -> srcerr r = io_EOF ->
  exists r',
    unread r' = [] /\ srcerr r' = io_EOF /\
    readChunk r =
    match part with
    | [] => Break r'
    | _ :: _ =>
        Return r' (fmt_Errorf "unable to read chunk data: %v"
                              [arg_err (Some io_ErrUnexpectedEOF)])
    end.
Proof.
  intros Hu Hlen He. unfold readChunk.
  destruct (ReadFull_exact r _ _ Hu) as (r1 & E1 & U1 & S1).
  rewrite length_slice4 in E1. rewrite E1. cbn [is_EOF not_nil].
  destruct (ReadFull_exact r1 _ _ U1) as (r2 & E2 & U2 & S2).
  rewrite length_slice4 in E2. rewrite E2. cbn [is_EOF not_nil].
  cbn [Length set_Length set_Type zeroChunk].
  rewrite (copy4_slice4 zero4 len).
  destruct part as [|b part].
  - rewrite (ReadFull_end r2 _ U2) by exact Hlen.
    rewrite S2, S1, He. cbn [is_EOF]. exists r2. split; [|split]; congruence.
  - destruct (ReadFull_short r2 (N.to_nat (Uint32_4 len)))
      as (r3 & E3 & U3 & S3);
      [rewrite U2; discriminate | rewrite U2; exact Hlen |].
    rewrite E3, S2, S1, He. cbn [unexpected is_EOF not_nil].
    exists r3. split; [|split]; congruence.
Qed.

(* ===================================================================== *)
(** ** What a successful parse stores                                     *)
(* ===================================================================== *)

Lemma readChunk_chunkOK (r r' : Reader) (c : Chunk) :
  readChunk r = Append r' c -> chunkOK c.
Proof.
  unfold readChunk.
  destruct (ReadFull r 4) as [[r1 g1] e1] eqn:E1.
  destruct e1 as [e1|]; [destruct e1; discriminate|]. cbn [is_EOF not_nil].
  destruct (ReadFull r1 4) as [[r2 g2] e2] eqn:E2.
  destruct e2 as [e2|]; [destruct e2; discriminate|]. cbn [is_EOF not_nil].
  destruct (ReadFull r2 _) as [[r3 g3] e3] eqn:E3.
  destruct e3 as [e3|]; [destruct e3; discriminate|]. cbn [is_EOF not_nil].
  destruct (ReadFull r3 4) as [[r4 g4] e4] eqn:E4.
  destruct e4 as [e4|]; [destruct e4; discriminate|]. cbn [is_EOF not_nil].
  destruct (negb _); [discriminate|]. intros [= _ <-].
  apply ReadFull_unread in E3. destruct E3 as (_ & _ & _ & L3).
  specialize (L3 eq_refl). unfold chunkOK.
  cbn [Data Length set_CRC set_Data set_Type set_Length zeroChunk] in *.
  rewrite filled_exact by exact L3. exact L3.
Qed.

Lemma loop_chunkOK (r : Reader) (acc : list Chunk) :
  Forall chunkOK acc -> Forall chunkOK (snd (fst (loop r acc))).
Proof.
  funelim (loop r acc); intros Hacc; cbn [fst snd]; try assumption.
  match goal with IH : Forall _ _ -> _ |- _ => apply IH end.
  apply Forall_app. split; [assumption|].
  constructor; [|constructor]. eapply readChunk_chunkOK; eassumption.
Qed.

Lemma chunks_chunkOK (p : Parser) : Forall chunkOK (snd (fst (chunks p))).
Proof.
  unfold chunks. destruct (IsPNG p) as [[p1 b] e].
  destruct (not_nil e); [constructor|].
  destruct (negb b); [constructor|].
  destruct (ReadFull (br p1) 8) as [[r g] e'].
  destruct (not_nil e' || negb (length g =? 8)); [constructor|].
  pose proof (loop_chunkOK (br (set_br p1 r)) [] (Forall_nil _)) as H.
  destruct (loop (br (set_br p1 r)) []) as [[r' cs] e'']. exact H.
Qed.

Lemma Parse_chunkOK (p p' : Parser) :
  Parse p = (p', None) -> Forall chunkOK (data p').
Proof.
  rewrite Parse_chunks. pose proof (chunks_chunkOK p) as H.
  destruct (snd (chunks p)); [discriminate|]. intros [= <-]. exact H.
Qed.

(* ===================================================================== *)
(** ** The encoder                                                        *)
(* ===================================================================== *)

Lemma stripChunk_open (ch : Chunk) (out : list byte) (c : option (option error))
      (err : option error) :
  stripChunk ch ({| delivered := out; demand := None; closedWith := c |}, err) =
  (({| delivered := out ++ (if isCritical ch then emitChunk ch else []);
       demand := None; closedWith := c |}, err), true).
Proof.
  unfold stripChunk, isCritical, emitChunk.
  destruct (Type_ ch); cbn; rewrite <- ?app_assoc, ?app_nil_r; reflexivity.
Qed.

Lemma walk_stripChunk_open (cs : list Chunk) (out : list byte)
      (c : option (option error)) (err : option error) :
  walk stripChunk cs
       ({| delivered := out; demand := None; closedWith := c |}, err) =
  ({| delivered := out ++ flat_map emitChunk (filter isCritical cs);
      demand := None; closedWith := c |}, err).
Proof.
  revert out. induction cs as [|ch cs IH]; intros out; cbn [walk].
  - cbn. rewrite app_nil_r. reflexivity.
  - rewrite stripChunk_open. cbn [negb]. rewrite IH. cbn [filter].
    destruct (isCritical ch); cbn [flat_map];
      rewrite <- ?app_assoc, ?app_nil_r; reflexivity.
Qed.

(** [StripTags] for a consumer that reads to the end. *)
Lemma StripTags_open (p : Parser) :
  StripTags p None =
  {| delivered := pngHeader ++ flat_map emitChunk (filter isCritical (data p));
     demand := None; closedWith := Some None |}.
Proof.
  unfold StripTags, WalkChunks. cbn [Pipe Write demand delivered closedWith
    not_nil app].
  rewrite walk_stripChunk_open. reflexivity.
Qed.

(* ===================================================================== *)
(** ** Parsing a stream of whole chunks                                   *)
(* ===================================================================== *)

(** A signature and whole chunks ahead: [chunks] runs the loop on what
    follows them, with those chunks collected. *)
Lemma chunks_wire (p : Parser) (ws : list wireChunk) (rest : list byte) :
  Forall wellFormed ws ->
  unread (br p) = pngHeader ++ flat_map wire ws ++ rest ->
  exists r0,
    unread r0 = rest /\ srcerr r0 = srcerr (br p) /\
    chunks p = (set_br p (fst (fst (loop r0 (map parsed ws)))),
                snd (fst (loop r0 (map parsed ws))),
                snd (loop r0 (map parsed ws))).
Proof.
  intros Hws Hu.
  destruct (chunks_signature p _ Hu) as (r0 & U0 & S0 & E0).
  destruct (loop_wire ws Hws r0 [] rest U0) as (r1 & E1 & U1 & S1).
  exists r1. rewrite E0, E1. cbn [app]. split; [|split]; congruence.
Qed.

(** A whole stream: [Parse] stores its chunks. *)
Lemma Parse_wire (p : Parser) (ws : list wireChunk) :
  Forall wellFormed ws ->
  reads p (pngHeader ++ flat_map wire ws) ->
  exists p', Parse p = (p', None) /\ data p' = map parsed ws.
Proof.
  intros Hws [Hu He].
  rewrite <- (app_nil_r (flat_map wire ws)) in Hu.
  destruct (chunks_wire p ws [] Hws Hu) as (r0 & U0 & S0 & E0).
  rewrite loop_end in E0 by congruence. cbn [fst snd] in E0.
  rewrite Parse_chunks, E0. cbn [fst snd]. eexists. split; reflexivity.
Qed.

(** [chunks] touches neither [Path] nor the stored chunks. *)
Lemma chunks_frame (p : Parser) :
  data (fst (fst (chunks p))) = data p /\ Path (fst (fst (chunks p))) = Path p.
Proof.
  unfold chunks. destruct (IsPNG_spec p) as (r1 & _ & E1). rewrite E1.
  destruct (length (unread (br p)) <? 8); cbn [not_nil negb fst snd];
    [auto|].
  destruct (bytes_Equal pngHeader (firstn 8 (unread (br p))));
    cbn [negb fst snd]; [|auto].
  destruct (ReadFull (br (set_br p r1)) 8) as [[r' g] e'].
  destruct (not_nil e' || negb (length g =? 8)); [auto|].
  destruct (loop (br (set_br (set_br p r1) r')) []) as [[r'' cs] e''].
  auto.
Qed.

(* ===================================================================== *)
(** ** The registry                                                       *)
(* ===================================================================== *)

Lemma bytes_Equal_sym (a b : list byte) : bytes_Equal a b = bytes_Equal b a.
Proof. rewrite <- !bytes_Compare_eqb. apply bytes_Compare_sym0. Qed.

Lemma getChunkType_classify (ct : list byte) : getChunkType ct = classify ct.
Proof.
  unfold getChunkType, classify, registry. cbn [find fst snd].
  rewrite !bytes_Compare_eqb.
  repeat match goal with
         | |- context [bytes_Equal ?c ct] =>
             rewrite (bytes_Equal_sym c ct);
             destruct (bytes_Equal ct c); [reflexivity|]
         end.
  reflexivity.
Qed.

(** A recognised code is the code the package has for its classification. *)
Lemma typeCode_getChunkType (ct : list byte) :
  getChunkType ct <> ChunkTypeUnknown -> typeCode (getChunkType ct) = ct.
Proof.
  unfold getChunkType.
  repeat match goal with
         | |- context [(bytes_Compare ct ?c =? 0)%Z] =>
             let E := fresh "E" in
             destruct (bytes_Compare ct c =? 0)%Z eqn:E;
             [apply Z.eqb_eq, bytes_Compare_eq in E; subst ct; reflexivity|]
         end.
  intros H. contradiction.
Qed.

Lemma typeCode_critical (c : Chunk) :
  isCritical c = true ->
  slice4 (copy4 zero4 (typeCode (Type_ c))) = typeCode (Type_ c) /\
  getChunkType (typeCode (Type_ c)) = Type_ c.
Proof.
  unfold isCritical. destruct (Type_ c); try discriminate; intros _;
    split; reflexivity.
Qed.

(** A critical chunk of a parsed document, written out and read back. *)
Lemma toWire_critical (c : Chunk) :
  isCritical c = true -> chunkOK c ->
  wellFormed (toWire c) /\ wire (toWire c) = emitChunk c /\
  parsed (toWire c) = c.
Proof.
  intros Hc Hok. destruct (typeCode_critical c Hc) as [H1 H2].
  unfold wellFormed, wire, emitChunk, parsed, toWire.
  cbn [wLength wType wData wCRC]. rewrite H1, H2.
  split; [exact Hok|]. split; [reflexivity|]. destruct c; reflexivity.
Qed.

Lemma filter_idem {A : Type} (f : A -> bool) (l : list A) :
  filter f (filter f l) = filter f l.
Proof.
  induction l as [|x l IH]; [reflexivity|]. cbn [filter].
  destruct (f x) eqn:E; [|exact IH]. cbn [filter]. rewrite E, IH. reflexivity.
Qed.

Lemma critical_as_wire (cs : list Chunk) :
  Forall chunkOK cs ->
  Forall wellFormed (map toWire (filter isCritical cs)) /\
  flat_map wire (map toWire (filter isCritical cs)) =
  flat_map emitChunk (filter isCritical cs) /\
  map parsed (map toWire (filter isCritical cs)) = filter isCritical cs.
Proof.
  induction 1 as [|c cs Hc Hcs (IH1 & IH2 & IH3)]; cbn [filter].
  - cbn. auto.
  - destruct (isCritical c) eqn:E; [|auto].
    destruct (toWire_critical c E Hc) as (W1 & W2 & W3).
    cbn [map flat_map]. rewrite W2, W3, IH2, IH3. auto.
Qed.

(* ===================================================================== *)
(** ** Properties of the package                                          *)
(* ===================================================================== *)

(** C1.  For every document, the stream [StripTags] yields to a consumer
    that reads it to the end is the 8-byte signature followed by exactly
    the chunks classified Header, Palette, ImageData or End, in their
    original order, each written as its 4-byte length, the 4-byte code of
    its classification, its data and its own 4-byte CRC; chunks of any
    other classification contribute nothing.  The stream then ends
    without an error. *)
Theorem C1_strip_keeps_critical_chunks (p : Parser) :
  delivered (StripTags p None) =
    pngHeader ++ flat_map emitChunk (filter isCritical (data p)) /\
  closedWith (StripTags p None) = Some None /\
  length pngHeader = 8 /\
  Forall (fun c =>
            In (Type_ c, typeCode (Type_ c))
               [(ChunkTypeHeader, ctHdr); (ChunkTypePalette, ctPlte);
                (ChunkTypeData, ctDat); (ChunkTypeEnd, ctEnd)] /\
            emitChunk c =
              slice4 (Length c) ++ typeCode (Type_ c) ++ Data c
              ++ slice4 (CRC c) /\
            length (slice4 (Length c)) = 4 /\
            length (typeCode (Type_ c)) = 4 /\
            length (slice4 (CRC c)) = 4)
         (filter isCritical (data p)).
Proof.
  rewrite StripTags_open. cbn [delivered closedWith].
  split; [reflexivity|]. split; [reflexivity|]. split; [reflexivity|].
  apply Forall_forall. intros c Hc. apply filter_In in Hc.
  destruct Hc as [_ Hc]. rewrite !length_slice4.
  unfold isCritical in Hc. unfold emitChunk.
  destruct (Type_ c); try discriminate; cbn; auto 10.
Qed.

(** The example of the specification: a text chunk between the critical
    chunks disappears with its payload, the others are kept as they
    were. *)
Example strip_demo :
  forall p', Parse (New "demo.png" demoPNG io_EOF) = (p', None) ->
  delivered (StripTags p' None) =
    pngHeader ++ wire demoIHDR ++ wire demoIDAT ++ wire demoIEND.
Proof.
  intros p' H. vm_compute in H. injection H as <-. vm_compute. reflexivity.
Qed.

(** A consumer that closes its end at once: the goroutine gives up on the
    signature and closes the pipe with that error. *)
Example strip_closed_pipe :
  StripTags (New "demo.png" demoPNG io_EOF) (Some 0) =
  {| delivered := [];
     demand := Some 0;
     closedWith :=
       Some (Some (fmt_Errorf "unable to write PNG header: %v"
                              [arg_err (Some io_ErrClosedPipe)])) |}.
Proof. reflexivity. Qed.

(** A consumer that closes its end ten bytes in: the iteratee stops the
    walk inside the first length field. *)
Example strip_pipe_closed_midway :
  forall p', Parse (New "demo.png" demoPNG io_EOF) = (p', None) ->
  StripTags p' (Some 10) =
  {| delivered := pngHeader ++ [x00; x00];
     demand := Some 0;
     closedWith :=
       Some (Some (fmt_Errorf "unable to write chunk length: %v"
                              [arg_err (Some io_ErrClosedPipe)])) |}.
Proof.
  intros p' H. vm_compute in H. injection H as <-. reflexivity.
Qed.

(** C6.  [getChunkType] is a function on codes that never fails: it is
    the lookup of the code in the fixed table of 21 distinct four-byte
    codes, each mapped to its named classification, and every code that is
    not in the table is classified [ChunkTypeUnknown]. *)
Theorem C6_classification_is_table_lookup (ct : list byte) :
  getChunkType ct = classify ct /\
  length registry = 21 /\
  NoDup (map fst registry) /\
  NoDup (map snd registry) /\
  map (fun e => getChunkType (fst e)) registry = map snd registry /\
  forallb (fun e => (length (fst e) =? 4)
                    && negb (chunkType_eqb (snd e) ChunkTypeUnknown))
          registry = true /\
  (if existsb (bytes_Equal ct) (map fst registry) then
     In (ct, getChunkType ct) registry
   else getChunkType ct = ChunkTypeUnknown).
Proof.
  split; [apply getChunkType_classify|].
  split; [reflexivity|].
  split.
  { unfold registry. cbn [map fst].
    repeat (constructor; [cbn; intuition discriminate|]). constructor. }
  split.
  { unfold registry. cbn [map snd].
    repeat (constructor; [cbn; intuition discriminate|]). constructor. }
  split; [reflexivity|].
  split; [reflexivity|].
  rewrite getChunkType_classify. unfold classify, registry.
  cbn [existsb map find fst snd orb].
  repeat match goal with
         | |- context [bytes_Equal ?c ct] =>
             rewrite (bytes_Equal_sym c ct);
             let E := fresh "E" in
             destruct (bytes_Equal ct c) eqn:E;
             [apply bytes_Equal_eq in E; subst ct; cbn; auto 30|]
         end.
  cbn. reflexivity.
Qed.

(** C7.  [parseHeader] returns an error exactly when its argument is not
    13 bytes long, and it never panics; on 13 bytes it returns width and
    height as the big-endian values of bytes 0-3 and 4-7 and the bytes at
    offsets 8 to 12 as bit depth, colour type, compression, filter and
    interlace method.  The payload 00000010 00000020 08 06 00 00 00
    decodes to width 16, height 32, bit depth 8, colour type 6. *)
Theorem C7_parseHeader_decodes_13_bytes
        (data : list byte) (d0 d1 d2 d3 d4 d5 d6 d7 d8 d9 d10 d11 d12 : byte) :
  (headerDecodeFails data <-> length data <> 13) /\
  parseHeader data <> None /\
  parseHeader [d0; d1; d2; d3; d4; d5; d6; d7; d8; d9; d10; d11; d12] =
    Some ({| Width := be32 d0 d1 d2 d3;
             Height := be32 d4 d5 d6 d7;
             BitDepth := d8;
             ColorType := d9;
             CompressionMethod := d10;
             FilterMethod := d11;
             InterlaceMethod := d12 |}, None) /\
  parseHeader demoHeaderData =
    Some ({| Width := 16; Height := 32; BitDepth := x08; ColorType := x06;
             CompressionMethod := x00; FilterMethod := x00;
             InterlaceMethod := x00 |}, None).
Proof.
  assert (H13 : forall e0 e1 e2 e3 e4 e5 e6 e7 e8 e9 e10 e11 e12 : byte,
             parseHeader [e0; e1; e2; e3; e4; e5; e6; e7; e8; e9; e10; e11; e12] =
             Some ({| Width := be32 e0 e1 e2 e3;
                      Height := be32 e4 e5 e6 e7;
                      BitDepth := e8; ColorType := e9;
                      CompressionMethod := e10; FilterMethod := e11;
                      InterlaceMethod := e12 |}, None)).
  { intros. unfold parseHeader. cbn [length Nat.eqb negb slice Nat.leb andb
      skipn firstn Nat.sub Uint32 index nth_error].
    rewrite !Uint32_4_be32. reflexivity. }
  assert (Hlen : forall l : list byte, length l = 13 ->
             exists e0 e1 e2 e3 e4 e5 e6 e7 e8 e9 e10 e11 e12,
               l = [e0; e1; e2; e3; e4; e5; e6; e7; e8; e9; e10; e11; e12]).
  { intros l Hl.
    do 13 (destruct l as [|? l]; [discriminate|]).
    destruct l; [|discriminate]. repeat eexists. }
  split; [|split; [|split]].
  - split.
    + intros (hdr & e & He) Hl.
      destruct (Hlen data Hl) as (e0 & e1 & e2 & e3 & e4 & e5 & e6 & e7 & e8
                                  & e9 & e10 & e11 & e12 & ->).
      rewrite H13 in He. discriminate.
    + intros Hl. unfold headerDecodeFails, parseHeader.
      destruct (length data =? 13) eqn:E;
        [apply Nat.eqb_eq in E; contradiction|].
      cbn [negb]. eauto.
  - destruct (Nat.eq_dec (length data) 13) as [Hl|Hl].
    + destruct (Hlen data Hl) as (e0 & e1 & e2 & e3 & e4 & e5 & e6 & e7 & e8
                                  & e9 & e10 & e11 & e12 & ->).
      rewrite H13. discriminate.
    + unfold parseHeader.
      destruct (length data =? 13) eqn:E;
        [apply Nat.eqb_eq in E; contradiction|].
      cbn [negb]. discriminate.
  - apply H13.
  - reflexivity.
Qed.

(** C10.  [Parse] replaces the stored chunk sequence only when it
    succeeds: if it returns an error the parser holds the sequence it held
    before the call, and if it returns none the parser holds the chunks
    that [chunks] produced. *)
Theorem C10_Parse_keeps_document_on_error
        (p p' : Parser) (err : option error) :
  Parse p = (p', err) ->
  (err <> None -> data p' = data p) /\
  (err = None -> data p' = snd (fst (chunks p))) /\
  (data p' <> data p -> err = None).
Proof.
  rewrite Parse_chunks. destruct (chunks_frame p) as [Hd _].
  destruct (snd (chunks p)) as [e|]; intros [= <- <-].
  - split; [auto|]. split; [discriminate|]. intros H. contradiction.
  - split; [intros H; contradiction|]. split; auto.
Qed.

Lemma C10_witness :
  snd (Parse staleParser) = Some (errors_New "input not a PNG") /\
  data (fst (Parse staleParser)) = data staleParser.
Proof.
  split; [reflexivity|].
  apply (C10_Parse_keeps_document_on_error
           staleParser (fst (Parse staleParser)) (snd (Parse staleParser)));
    [reflexivity | vm_compute; discriminate].
Defined.

(** A recognised chunk, parsed and written out again, is the chunk of the
    stream. *)
Lemma emitChunk_parsed (w : wireChunk) :
  getChunkType (slice4 (wType w)) <> ChunkTypeUnknown ->
  emitChunk (parsed w) = wire w.
Proof.
  intros H. unfold emitChunk, parsed, wire. cbn [Length Type_ Data CRC].
  rewrite typeCode_getChunkType by exact H. reflexivity.
Qed.

(** C2, as the code has it.  [Chunk] keeps the classification of a chunk,
    not its type code.  For every PNG byte stream whose chunks all carry
    one of the 21 codes of the registry, [Parse] succeeds, stores the
    chunks of the stream in order, and writing each stored chunk out (its
    length, the code of its classification, its data, its CRC) after the
    signature reproduces the stream. *)
Theorem C2_roundtrip_of_registered_chunks (p : Parser) (ws : list wireChunk) :
  Forall wellFormed ws ->
  Forall (fun w => getChunkType (slice4 (wType w)) <> ChunkTypeUnknown) ws ->
  reads p (pngHeader ++ flat_map wire ws) ->
  exists p',
    Parse p = (p', None) /\
    data p' = map parsed ws /\
    reemit (data p') = pngHeader ++ flat_map wire ws.
Proof.
  intros Hws Hknown Hp.
  destruct (Parse_wire p ws Hws Hp) as (p' & E & D).
  exists p'. split; [exact E|]. split; [exact D|].
  rewrite D. unfold reemit. f_equal. clear -Hknown.
  induction Hknown as [|w ws' Hw _ IH]; [reflexivity|].
  cbn [map flat_map]. rewrite emitChunk_parsed by exact Hw.
  f_equal. exact IH.
Qed.

Lemma C2_witness :
  exists p',
    Parse (New "demo.png" demoPNG io_EOF) = (p', None) /\
    data p' = map parsed demoChunks /\
    reemit (data p') = demoPNG.
Proof.
  apply (C2_roundtrip_of_registered_chunks
           (New "demo.png" demoPNG io_EOF) demoChunks).
  - repeat constructor.
  - repeat constructor; vm_compute; discriminate.
  - split; reflexivity.
Defined.

(** C2 as stated fails: [offsPNG] is a PNG stream, [Parse] accepts it, and
    the chunks it stores do not give the stream back, because the [oFFs]
    chunk is stored as [ChunkTypeUnknown], without its code. *)
Lemma C2_counterexample :
  validPNG offsPNG /\
  snd (Parse (New "offs.png" offsPNG io_EOF)) = None /\
  data (fst (Parse (New "offs.png" offsPNG io_EOF))) = map parsed offsChunks /\
  Type_ (parsed demoOFFs) = ChunkTypeUnknown /\
  reemit (data (fst (Parse (New "offs.png" offsPNG io_EOF)))) <> offsPNG.
Proof.
  split.
  { exists offsChunks. split; [repeat constructor | reflexivity]. }
  split; [reflexivity|]. split; [reflexivity|]. split; [reflexivity|].
  vm_compute. discriminate.
Qed.

(** C3, as the code has it.  The input ends inside the data of its last
    chunk, whose length field declares more bytes than remain.  If no data
    byte remains, [Parse] succeeds and stores exactly the chunks completed
    before; the unfinished chunk is not among them.  If some data bytes
    remain, [Parse] fails with [unable to read chunk data] wrapping
    [io.ErrUnexpectedEOF], and the stored sequence stays what it was. *)
Theorem C3_input_ends_in_chunk_data
        (p : Parser) (ws : list wireChunk) (len ty : array4) (part : list byte) :
  Forall wellFormed ws ->
  length part < N.to_nat (Uint32_4 len) ->
  reads p (pngHeader ++ flat_map wire ws ++ slice4 len ++ slice4 ty ++ part) ->
  exists p',
    Parse p =
      (p', match part with
           | [] => None
           | _ :: _ => Some (fmt_Errorf "unable to read chunk data: %v"
                                        [arg_err (Some io_ErrUnexpectedEOF)])
           end) /\
    data p' = match part with
              | [] => map parsed ws
              | _ :: _ => data p
              end.
Proof.
  intros Hws Hlen [Hu He].
  destruct (chunks_wire p ws _ Hws Hu) as (r0 & U0 & S0 & E0).
  rewrite He in S0.
  destruct (readChunk_short_data r0 len ty part U0 Hlen S0)
    as (r1 & _ & _ & E1).
  rewrite loop_step, E1 in E0. rewrite Parse_chunks, E0.
  destruct part; cbn [fst snd]; eexists; split; reflexivity.
Qed.

Lemma C3_witness :
  exists p',
    Parse (New "cut.png" cutInData io_EOF) =
      (p', Some (fmt_Errorf "unable to read chunk data: %v"
                            [arg_err (Some io_ErrUnexpectedEOF)])) /\
    data p' = [].
Proof.
  apply (C3_input_ends_in_chunk_data
           (New "cut.png" cutInData io_EOF) [demoIHDR]
           (wLength demoTEXT) (wType demoTEXT) (firstn 7 (wData demoTEXT))).
  - repeat constructor.
  - vm_compute. lia.
  - split; reflexivity.
Defined.

(** C3 as stated fails: [cutInData] ends seven bytes into a chunk that
    declares thirteen, after one whole chunk; [Parse] returns an error and
    stores nothing. *)
Lemma C3_counterexample :
  cutInData = pngHeader ++ wire demoIHDR ++ slice4 (wLength demoTEXT)
              ++ slice4 (wType demoTEXT) ++ firstn 7 (wData demoTEXT) /\
  length (firstn 7 (wData demoTEXT)) = 7 /\
  Uint32_4 (wLength demoTEXT) = 13%N /\
  snd (Parse (New "cut.png" cutInData io_EOF)) =
    Some (fmt_Errorf "unable to read chunk data: %v"
                     [arg_err (Some io_ErrUnexpectedEOF)]) /\
  data (fst (Parse (New "cut.png" cutInData io_EOF))) = [] /\
  snd (fst (chunks (New "cut.png" cutInData io_EOF))) = [parsed demoIHDR].
Proof. repeat split; reflexivity. Qed.

(** C4, as the code has it.  The input ends after a chunk's length field
    with fewer than four bytes left for the type code.  If at least one
    byte is left, [Parse] fails with [unable to read chunk type] wrapping
    [io.ErrUnexpectedEOF], and the stored sequence stays what it was.  If
    none is left, [Parse] succeeds and stores the chunks completed
    before. *)
Theorem C4_input_ends_in_type_code
        (p : Parser) (ws : list wireChunk) (len : array4) (part : list byte) :
  Forall wellFormed ws ->
  length part < 4 ->
  reads p (pngHeader ++ flat_map wire ws ++ slice4 len ++ part) ->
  exists p',
    Parse p =
      (p', match part with
           | [] => None
           | _ :: _ => Some (fmt_Errorf "unable to read chunk type: %v"
                                        [arg_err (Some io_ErrUnexpectedEOF)])
           end) /\
    data p' = match part with
              | [] => map parsed ws
              | _ :: _ => data p
              end.
Proof.
  intros Hws Hlen [Hu He].
  destruct (chunks_wire p ws _ Hws Hu) as (r0 & U0 & S0 & E0).
  rewrite He in S0.
  destruct (readChunk_short_type r0 len part U0 Hlen S0) as (r1 & _ & _ & E1).
  rewrite loop_step, E1 in E0. rewrite Parse_chunks, E0.
  destruct part; cbn [fst snd]; eexists; split; reflexivity.
Qed.

Lemma C4_witness :
  exists p',
    Parse (New "cut.png" (cutAfterLength ++ [x74; x45]) io_EOF) =
      (p', Some (fmt_Errorf "unable to read chunk type: %v"
                            [arg_err (Some io_ErrUnexpectedEOF)])) /\
    data p' = [].
Proof.
  apply (C4_input_ends_in_type_code
           (New "cut.png" (cutAfterLength ++ [x74; x45]) io_EOF) [demoIHDR]
           (wLength demoTEXT) [x74; x45]).
  - repeat constructor.
  - simpl. lia.
  - split; reflexivity.
Defined.

(** C4 as stated fails: [cutAfterLength] ends right after a length field,
    with no byte left for the type code; [Parse] returns no error and
    stores the chunk read before. *)
Lemma C4_counterexample :
  cutAfterLength = pngHeader ++ wire demoIHDR ++ slice4 (wLength demoTEXT) /\
  snd (Parse (New "cut.png" cutAfterLength io_EOF)) = None /\
  data (fst (Parse (New "cut.png" cutAfterLength io_EOF))) = [parsed demoIHDR].
Proof. repeat split; reflexivity. Qed.

(** C5.  Stripping is idempotent: when [Parse] has succeeded, parsing the
    stream that [StripTags] yields succeeds, and [StripTags] on that
    second document yields the same stream. *)
Theorem C5_strip_idempotent (p p1 q : Parser) :
  Parse p = (p1, None) ->
  reads q (delivered (StripTags p1 None)) ->
  exists q1,
    Parse q = (q1, None) /\
    data q1 = filter isCritical (data p1) /\
    delivered (StripTags q1 None) = delivered (StripTags p1 None).
Proof.
  intros HP Hq. apply Parse_chunkOK in HP.
  destruct (critical_as_wire (data p1) HP) as (W1 & W2 & W3).
  rewrite StripTags_open in Hq. cbn [delivered] in Hq. rewrite <- W2 in Hq.
  destruct (Parse_wire q _ W1 Hq) as (q1 & E & D).
  rewrite W3 in D.
  exists q1. split; [exact E|]. split; [exact D|].
  rewrite !StripTags_open. cbn [delivered]. rewrite D, filter_idem.
  reflexivity.
Qed.

Lemma C5_witness :
  exists q1,
    Parse (New "demo-cleaned.png"
               (pngHeader ++ wire demoIHDR ++ wire demoIDAT ++ wire demoIEND)
               io_EOF) = (q1, None) /\
    data q1 = [parsed demoIHDR; parsed demoIDAT; parsed demoIEND] /\
    delivered (StripTags q1 None) =
      pngHeader ++ wire demoIHDR ++ wire demoIDAT ++ wire demoIEND.
Proof.
  apply (C5_strip_idempotent
           (New "demo.png" demoPNG io_EOF)
           (fst (Parse (New "demo.png" demoPNG io_EOF)))
           (New "demo-cleaned.png"
                (pngHeader ++ wire demoIHDR ++ wire demoIDAT ++ wire demoIEND)
                io_EOF)).
  - reflexivity.
  - split; reflexivity.
Defined.

(** C8.  [IsPNG] does not consume input: a second call returns what the
    first returned, the input ahead of the parser is the same after each
    call, signature included, and a [Parse] after the two calls returns
    the error, stores the chunks and leaves the input that a [Parse]
    without them would. *)
Theorem C8_IsPNG_does_not_consume (p : Parser) :
  let p1 := fst (fst (IsPNG p)) in
  let p2 := fst (fst (IsPNG p1)) in
  snd (fst (IsPNG p1)) = snd (fst (IsPNG p)) /\
  snd (IsPNG p1) = snd (IsPNG p) /\
  unread (br p1) = unread (br p) /\
  unread (br p2) = unread (br p) /\
  data p2 = data p /\
  snd (Parse p2) = snd (Parse p) /\
  data (fst (Parse p2)) = data (fst (Parse p)) /\
  unread (br (fst (Parse p2))) = unread (br (fst (Parse p))).
Proof.
  destruct (IsPNG_spec p) as (r1 & S1 & E1).
  destruct (IsPNG_spec (set_br p r1)) as (r2 & S2 & E2).
  cbn [br set_br] in S2, E2.
  rewrite E1. cbn [fst snd]. rewrite E2. cbn [fst snd br set_br data].
  destruct S1 as [U1 X1]. destruct S2 as [U2 X2].
  rewrite U1, X1.
  split; [reflexivity|]. split; [reflexivity|]. split; [reflexivity|].
  split; [congruence|]. split; [reflexivity|].
  set (p2 := set_br (set_br p r1) r2).
  assert (S : sameInput (br p2) (br p)) by (split; cbn; congruence).
  destruct (chunks_sameInput p2 p S) as ([SU _] & SC & SE).
  destruct (chunks_frame p2) as [D2 _]. destruct (chunks_frame p) as [D _].
  rewrite !Parse_chunks, SE, SC.
  destruct (snd (chunks p)); cbn [fst snd data set_data br].
  - split; [reflexivity|]. split; [|exact SU]. rewrite D2, D. reflexivity.
  - split; [reflexivity|]. split; [reflexivity|exact SU].
Qed.

(** C9.  When the first eight bytes of the input are not the PNG
    signature, [Parse] fails with [input not a PNG]; [chunks] returns no
    chunk, the input ahead is untouched and the stored sequence is what it
    was. *)
Theorem C9_not_a_png (p : Parser) :
  8 <= length (unread (br p)) ->
  firstn 8 (unread (br p)) <> pngHeader ->
  exists p',
    Parse p = (p', Some (errors_New "input not a PNG")) /\
    snd (fst (chunks p)) = [] /\
    unread (br p') = unread (br p) /\
    data p' = data p.
Proof.
  intros Hlen Hne.
  destruct (chunks_not_png p Hlen Hne) as (r & [U _] & E).
  rewrite Parse_chunks, E. cbn [fst snd].
  eexists. split; [reflexivity|]. split; [reflexivity|]. split; [exact U|].
  reflexivity.
Qed.

(** With fewer than eight bytes of input the error is the one [Peek]
    reports, here the end of the input. *)
Example short_input_is_EOF :
  snd (Parse (New "tiny.png" [x89; x50; x4e] io_EOF)) = Some io_EOF.
Proof. reflexivity. Qed.

Lemma C9_witness :
  exists p',
    Parse (New "notes.txt" textFile io_EOF)
      = (p', Some (errors_New "input not a PNG")) /\
    snd (fst (chunks (New "notes.txt" textFile io_EOF))) = [] /\
    unread (br p') = textFile /\
    data p' = [].
Proof.
  apply (C9_not_a_png (New "notes.txt" textFile io_EOF)).
  - simpl. lia.
  - vm_compute. discriminate.
Defined.

(* ===================================================================== *)
(** ** More about [IsPNG], [chunks] and [Parse]                           *)
(* ===================================================================== *)

Lemma starts_with_signature (u : list byte) :
  8 <= length u ->
  (bytes_Equal pngHeader (firstn 8 u) = true <->
   exists s, u = pngHeader ++ s).
Proof.
  intros Hlen. rewrite bytes_Equal_eq. split.
  - intros H. exists (skipn 8 u). rewrite H. symmetry. apply firstn_skipn.
  - intros [s ->]. reflexivity.
Qed.

(** X1.  [IsPNG] answers [true] exactly when the input ahead starts with the
    signature, and reports an error exactly when fewer than eight bytes
    are ahead; the error is then the one the source ends with, and the
    answer is [false]. *)
Theorem IsPNG_true_iff_signature_ahead (p : Parser) :
  (snd (fst (IsPNG p)) = true <-> exists s, unread (br p) = pngHeader ++ s) /\
  (snd (IsPNG p) <> None <-> length (unread (br p)) < 8) /\
  (snd (IsPNG p) = None \/
   snd (IsPNG p) = Some (srcerr (br p)) /\ snd (fst (IsPNG p)) = false).
Proof.
  destruct (IsPNG_spec p) as (r & _ & E). rewrite E. cbn [fst snd].
  destruct (length (unread (br p)) <? 8) eqn:E8.
  - apply Nat.ltb_lt in E8. split; [|split].
    + split; [discriminate|]. intros [s Hs]. rewrite Hs, length_app in E8.
      cbn in E8. lia.
    + split; [auto | discriminate].
    + right. auto.
  - apply Nat.ltb_ge in E8. split; [|split].
    + apply starts_with_signature. exact E8.
    + split; [intros H; contradiction | lia].
    + left. reflexivity.
Qed.

(** An [io.EOF] from [io.ReadFull] means that nothing was ahead. *)
Lemma ReadFull_EOF (r r' : Reader) (n : nat) (got : list byte) :
  ReadFull r n = (r', got, Some io_EOF) ->
  unread r = [] /\ srcerr r = io_EOF /\ r' = r /\ got = [] /\ 0 < n.
Proof.
  unfold ReadFull.
  destruct (n =? 0) eqn:E0; [discriminate|]. apply Nat.eqb_neq in E0.
  destruct (n <=? length (unread r)); [discriminate|].
  destruct (unread r) as [|b rest].
  - intros [= <- <- H]. repeat split; auto. lia.
  - intros [= _ _ H]. destruct (srcerr r); discriminate.
Qed.

(** Any other error of [io.ReadFull] is [unexpected] of the source's. *)
Lemma ReadFull_error (r r' : Reader) (n : nat) (got : list byte) (e : error) :
  ReadFull r n = (r', got, Some e) ->
  e = io_EOF \/ e = unexpected (srcerr r).
Proof.
  unfold ReadFull.
  destruct (n =? 0); [discriminate|].
  destruct (n <=? length (unread r)); [discriminate|].
  destruct (unread r) as [|b rest]; intros [= _ _ H].
  - destruct (srcerr r); subst e; auto.
  - auto.
Qed.

Lemma slice4_copy4 (g : list byte) :
  length g = 4 -> slice4 (copy4 zero4 g) = g.
Proof.
  intros H. do 4 (destruct g as [|? g]; [discriminate|]).
  destruct g; [reflexivity|discriminate].
Qed.

(** Splits one [io.ReadFull] of the loop body. *)
Ltac read_one r' g e E :=
  match goal with
  | |- context [ReadFull ?a ?n] =>
      destruct (ReadFull a n) as [[r' g] e] eqn:E
  end.

(** A pass that appends has read one whole chunk off the input. *)
Lemma readChunk_Append_inv (r r' : Reader) (c : Chunk) :
  readChunk r = Append r' c ->
  exists w, wellFormed w /\ unread r = wire w ++ unread r' /\
            c = parsed w /\ srcerr r' = srcerr r.
Proof.
  unfold readChunk.
  read_one r1 g1 e1 E1.
  destruct e1 as [e1|]; [destruct e1; discriminate|]. cbn [is_EOF not_nil].
  read_one r2 g2 e2 E2.
  destruct e2 as [e2|]; [destruct e2; discriminate|]. cbn [is_EOF not_nil].
  read_one r3 g3 e3 E3.
  destruct e3 as [e3|]; [destruct e3; discriminate|]. cbn [is_EOF not_nil].
  read_one r4 g4 e4 E4.
  destruct e4 as [e4|]; [destruct e4; discriminate|]. cbn [is_EOF not_nil].
  destruct (negb _); [discriminate|]. intros [= <- <-].
  apply ReadFull_unread in E1, E2, E3, E4.
  destruct E1 as (U1 & S1 & G1 & L1), E2 as (U2 & S2 & G2 & L2),
           E3 as (U3 & S3 & G3 & L3), E4 as (U4 & S4 & G4 & L4).
  specialize (L1 eq_refl). specialize (L2 eq_refl).
  specialize (L3 eq_refl). specialize (L4 eq_refl).
  cbn [Length CRC set_Length set_Type set_Data zeroChunk] in *.
  exists {| wLength := copy4 zero4 g1; wType := copy4 zero4 g2;
            wData := g3; wCRC := copy4 zero4 g4 |}.
  unfold wellFormed, wire, parsed. cbn [wLength wType wData wCRC].
  rewrite !slice4_copy4 by assumption.
  split; [exact L3|]. split; [|split].
  - assert (H1 : unread r = g1 ++ unread r1)
      by (rewrite <- (firstn_skipn (length g1) (unread r)), <- G1, <- U1;
          reflexivity).
    assert (H2 : unread r1 = g2 ++ unread r2)
      by (rewrite <- (firstn_skipn (length g2) (unread r1)), <- G2, <- U2;
          reflexivity).
    assert (H3 : unread r2 = g3 ++ unread r3)
      by (rewrite <- (firstn_skipn (length g3) (unread r2)), <- G3, <- U3;
          reflexivity).
    assert (H4 : unread r3 = g4 ++ unread r4)
      by (rewrite <- (firstn_skipn (length g4) (unread r3)), <- G4, <- U4;
          reflexivity).
    rewrite H1, H2, H3, H4, <- !app_assoc. reflexivity.
  - unfold set_CRC, set_Data, set_Type, set_Length. cbn [Length CRC Type_ Data].
    rewrite (filled_exact 4) by assumption.
    rewrite filled_exact by assumption. reflexivity.
  - congruence.
Qed.

(** A pass that breaks has met a plain end of input at a field boundary. *)
Lemma readChunk_Break_inv (r r' : Reader) :
  readChunk r = Break r' ->
  silentTail (unread r) /\ unread r' = [] /\
  srcerr r = io_EOF /\ srcerr r' = io_EOF.
Proof.
  unfold readChunk, silentTail.
  read_one r1 g1 e1 E1.
  destruct e1 as [e1|]; cbn [is_EOF not_nil].
  { destruct e1; try discriminate. intros [= <-].
    apply ReadFull_EOF in E1. destruct E1 as (U & S & -> & _ & _).
    auto. }
  read_one r2 g2 e2 E2. pose proof E1 as F1.
  apply ReadFull_unread in F1. destruct F1 as (U1 & S1 & G1 & L1).
  specialize (L1 eq_refl).
  assert (H1 : unread r = g1 ++ unread r1).
  { rewrite <- (firstn_skipn (length g1) (unread r)), <- G1, <- U1.
    reflexivity. }
  destruct e2 as [e2|]; cbn [is_EOF not_nil].
  { destruct e2; try discriminate. intros [= <-].
    apply ReadFull_EOF in E2. destruct E2 as (U & S & -> & _ & _).
    rewrite H1, U, app_nil_r.
    split; [|split; [first [reflexivity | exact U]|split; congruence]].
    right. left. exists (copy4 zero4 g1). rewrite slice4_copy4; auto. }
  cbn [Length set_Length set_Type zeroChunk].
  read_one r3 g3 e3 E3. pose proof E2 as F2.
  apply ReadFull_unread in F2. destruct F2 as (U2 & S2 & G2 & L2).
  specialize (L2 eq_refl).
  assert (H2 : unread r1 = g2 ++ unread r2).
  { rewrite <- (firstn_skipn (length g2) (unread r1)), <- G2, <- U2.
    reflexivity. }
  destruct e3 as [e3|]; cbn [is_EOF not_nil].
  { destruct e3; try discriminate. intros [= <-].
    apply ReadFull_EOF in E3. destruct E3 as (U & S & -> & _ & Hpos).
    rewrite H1, H2, U, app_nil_r.
    split; [|split; [first [reflexivity | exact U]|split; congruence]].
    right. right. left. exists (copy4 zero4 g1), (copy4 zero4 g2).
    rewrite !slice4_copy4 by assumption. auto. }
  read_one r4 g4 e4 E4. pose proof E3 as F3.
  apply ReadFull_unread in F3. destruct F3 as (U3 & S3 & G3 & L3).
  specialize (L3 eq_refl).
  assert (H3 : unread r2 = g3 ++ unread r3).
  { rewrite <- (firstn_skipn (length g3) (unread r2)), <- G3, <- U3.
    reflexivity. }
  destruct e4 as [e4|]; cbn [is_EOF not_nil].
  { destruct e4; try discriminate. intros [= <-].
    apply ReadFull_EOF in E4. destruct E4 as (U & S & -> & _ & _).
    rewrite H1, H2, H3, U, app_nil_r.
    split; [|split; [first [reflexivity | exact U]|split; congruence]].
    right. right. right.
    exists (copy4 zero4 g1), (copy4 zero4 g2), g3.
    rewrite !slice4_copy4 by assumption. auto. }
  destruct (negb _); discriminate.
Qed.

(** A pass that returns an error wraps [unexpected] of the source's error
    under the name of the field it was reading; the test of the CRC byte
    count never fires. *)
Lemma readChunk_Return_inv (r r' : Reader) (e : error) :
  readChunk r = Return r' e ->
  exists field, In field chunkFields /\
                e = chunkReadError field (unexpected (srcerr r)).
Proof.
  unfold readChunk, chunkFields.
  read_one r1 g1 e1 E1.
  destruct e1 as [e1|].
  { destruct (ReadFull_error _ _ _ _ _ E1) as [-> | ->]; [discriminate|].
    destruct (is_EOF _); [discriminate|]. cbn [not_nil]. intros [= _ <-].
    exists "length"%string. split; [cbn; auto|reflexivity]. }
  cbn [is_EOF not_nil]. apply ReadFull_unread in E1.
  destruct E1 as (_ & S1 & _ & _).
  read_one r2 g2 e2 E2.
  destruct e2 as [e2|].
  { destruct (ReadFull_error _ _ _ _ _ E2) as [-> | ->]; [discriminate|].
    destruct (is_EOF _); [discriminate|]. cbn [not_nil]. intros [= _ <-].
    exists "type"%string. rewrite S1. split; [cbn; auto|reflexivity]. }
  cbn [is_EOF not_nil]. apply ReadFull_unread in E2.
  destruct E2 as (_ & S2 & _ & _).
  read_one r3 g3 e3 E3.
  destruct e3 as [e3|].
  { destruct (ReadFull_error _ _ _ _ _ E3) as [-> | ->]; [discriminate|].
    destruct (is_EOF _); [discriminate|]. cbn [not_nil]. intros [= _ <-].
    exists "data"%string. rewrite S2, S1. split; [cbn; auto|reflexivity]. }
  cbn [is_EOF not_nil]. apply ReadFull_unread in E3.
  destruct E3 as (_ & S3 & _ & _).
  read_one r4 g4 e4 E4.
  destruct e4 as [e4|].
  { destruct (ReadFull_error _ _ _ _ _ E4) as [-> | ->]; [discriminate|].
    destruct (is_EOF _); [discriminate|]. cbn [not_nil]. intros [= _ <-].
    exists "CRC"%string. rewrite S3, S2, S1. split; [cbn; auto 6|reflexivity]. }
  cbn [is_EOF not_nil]. apply ReadFull_unread in E4.
  destruct E4 as (_ & _ & _ & L4). rewrite (L4 eq_refl). cbn [Nat.eqb negb].
  discriminate.
Qed.

(** What the loop has done when it stops: it has appended the whole
    chunks at the head of the input, in order, and then either met a plain
    end of input at a field boundary or failed on a read. *)
Lemma loop_inv (r : Reader) (acc : list Chunk) :
  exists (ws : list wireChunk) (tail : list byte),
    Forall wellFormed ws /\
    snd (fst (loop r acc)) = acc ++ map parsed ws /\
    unread r = flat_map wire ws ++ tail /\
    srcerr (fst (fst (loop r acc))) = srcerr r /\
    match snd (loop r acc) with
    | None =>
        silentTail tail /\ unread (fst (fst (loop r acc))) = [] /\
        srcerr r = io_EOF
    | Some e =>
        exists field, In field chunkFields /\
                      e = chunkReadError field (unexpected (srcerr r))
    end.
Proof.
  funelim (loop r acc).
  - match goal with
    | IH : exists _ _, _ |- _ =>
        destruct IH as (ws & tail & Hws & Hcs & Hu & Hs & Hend)
    end.
    destruct (readChunk_Append_inv _ _ _ H) as (w & Hw & Uw & -> & Sw).
    exists (w :: ws), tail. split; [constructor; assumption|].
    split; [rewrite Hcs, <- app_assoc; reflexivity|].
    split; [rewrite Uw, Hu; cbn [flat_map]; apply app_assoc|].
    split; [congruence|]. rewrite <- Sw. exact Hend.
  - destruct (readChunk_Break_inv _ _ e) as (T & U & S & S').
    exists [], (unread r). cbn [fst snd map flat_map app].
    rewrite app_nil_r. repeat split; auto. congruence.
  - destruct (readChunk_Return_inv _ _ _ e) as (field & Hf & ->).
    pose proof e as E. unfold readChunk in E.
    exists [], (unread r). cbn [fst snd map flat_map app].
    rewrite app_nil_r. split; [constructor|]. split; [reflexivity|].
    split; [reflexivity|]. split; [|eauto].
    clear -E.
    repeat match type of E with
           | context [ReadFull ?a ?n] =>
               let F := fresh "F" in
               destruct (ReadFull a n) as [[? ?] ?] eqn:F;
               apply ReadFull_unread in F; destruct F as (_ & F & _)
           | context [if ?c then _ else _] => destruct c
           end; try discriminate; injection E as <- _; congruence.
Qed.

(** The three ways [chunks] can go. *)
Lemma chunks_cases (p : Parser) :
  (length (unread (br p)) < 8 /\
   snd (chunks p) = Some (srcerr (br p)) /\ snd (fst (chunks p)) = []) \/
  (8 <= length (unread (br p)) /\ firstn 8 (unread (br p)) <> pngHeader /\
   snd (chunks p) = Some (errors_New "input not a PNG") /\
   snd (fst (chunks p)) = []) \/
  (exists s r0,
      unread (br p) = pngHeader ++ s /\ unread r0 = s /\
      srcerr r0 = srcerr (br p) /\
      chunks p = (set_br p (fst (fst (loop r0 []))),
                  snd (fst (loop r0 [])), snd (loop r0 []))).
Proof.
  destruct (Nat.lt_ge_cases (length (unread (br p))) 8) as [Hlt|Hge].
  - left. split; [exact Hlt|]. unfold chunks.
    destruct (IsPNG_spec p) as (r & _ & E). rewrite E.
    replace (length (unread (br p)) <? 8) with true
      by (symmetry; apply Nat.ltb_lt; exact Hlt).
    cbn [not_nil fst snd]. auto.
  - destruct (list_eq_dec Byte.byte_eq_dec (firstn 8 (unread (br p))) pngHeader)
      as [Heq|Hne].
    + right. right. exists (skipn 8 (unread (br p))).
      assert (Hu : unread (br p) = pngHeader ++ skipn 8 (unread (br p)))
        by (rewrite <- Heq; symmetry; apply firstn_skipn).
      destruct (chunks_signature p _ Hu) as (r0 & U0 & S0 & E0).
      exists r0. auto.
    + right. left.
      destruct (chunks_not_png p Hge Hne) as (r & _ & E). rewrite E.
      cbn [fst snd]. auto.
Qed.

(** The input ends after the data of a chunk, or inside its CRC. *)
Lemma readChunk_short_crc (r : Reader) (len ty : array4) (d part : list byte) :
  unread r = slice4 len ++ slice4 ty ++ d ++ part ->
  length d = N.to_nat (Uint32_4 len) ->
  length part < 4 -> srcerr r = io_EOF ->
  exists r',
    unread r' = [] /\ srcerr r' = io_EOF /\
    readChunk r =
    match part with
    | [] => Break r'
    | _ :: _ => Return r' (chunkReadError "CRC" io_ErrUnexpectedEOF)
    end.
Proof.
  intros Hu Hd Hlen He. unfold readChunk.
  destruct (ReadFull_exact r _ _ Hu) as (r1 & E1 & U1 & S1).
  rewrite length_slice4 in E1. rewrite E1. cbn [is_EOF not_nil].
  destruct (ReadFull_exact r1 _ _ U1) as (r2 & E2 & U2 & S2).
  rewrite length_slice4 in E2. rewrite E2. cbn [is_EOF not_nil].
  cbn [Length set_Length set_Type zeroChunk].
  rewrite (copy4_slice4 zero4 len).
  destruct (ReadFull_exact r2 _ _ U2) as (r3 & E3 & U3 & S3).
  rewrite Hd in E3. rewrite E3. cbn [is_EOF not_nil].
  destruct part as [|b part].
  - rewrite (ReadFull_end r3 4 U3) by lia.
    rewrite S3, S2, S1, He. cbn [is_EOF]. exists r3.
    split; [|split]; congruence.
  - destruct (ReadFull_short r3 4) as (r4 & E4 & U4 & S4);
      [rewrite U3; discriminate | rewrite U3; exact Hlen |].
    rewrite E4, S3, S2, S1, He. cbn [unexpected is_EOF not_nil].
    exists r4. split; [|split]; [congruence..|reflexivity].
Qed.

(** The input ends inside a length field. *)
Lemma readChunk_short_length (r : Reader) :
  unread r <> [] -> length (unread r) < 4 -> srcerr r = io_EOF ->
  exists r',
    readChunk r = Return r' (chunkReadError "length" io_ErrUnexpectedEOF).
Proof.
  intros Hne Hlen He. unfold readChunk.
  destruct (ReadFull_short r 4 Hne Hlen) as (r1 & E1 & _ & _).
  rewrite E1, He. cbn [unexpected is_EOF not_nil]. exists r1. reflexivity.
Qed.

(** After a tail that [chunks] passes over in silence the loop stops
    without an error. *)
Lemma loop_silentTail (r : Reader) (acc : list Chunk) :
  silentTail (unread r) -> srcerr r = io_EOF ->
  exists r', loop r acc = (r', acc, None).
Proof.
  intros T He. rewrite loop_step.
  destruct T as [U | [(len & U) | [(len & ty & U & Hpos) | (len & ty & d & U & Hd)]]].
  - rewrite <- loop_step, loop_end by assumption. eauto.
  - rewrite <- (app_nil_r (slice4 len)) in U.
    destruct (readChunk_short_type r len [] U) as (r' & _ & _ & E);
      [cbn; lia | exact He |]. rewrite E. eauto.
  - rewrite <- (app_nil_r (slice4 ty)) in U.
    destruct (readChunk_short_data r len ty [] U) as (r' & _ & _ & E);
      [exact Hpos | exact He |]. rewrite E. eauto.
  - rewrite <- (app_nil_r d) in U.
    destruct (readChunk_short_crc r len ty d [] U Hd) as (r' & _ & _ & E);
      [cbn; lia | exact He |]. rewrite E. eauto.
Qed.

Lemma Parse_None_drained (p p' : Parser) :
  Parse p = (p', None) ->
  unread (br p') = [] /\ srcerr (br p) = io_EOF /\ srcerr (br p') = io_EOF.
Proof.
  rewrite Parse_chunks.
  destruct (chunks_cases p) as [(_ & E & _) | [(_ & _ & E & _) | H]].
  - rewrite E. discriminate.
  - rewrite E. discriminate.
  - destruct H as (s & r0 & U & U0 & S0 & E). rewrite E. cbn [fst snd].
    destruct (loop_inv r0 []) as (ws & tail & _ & _ & _ & Sr & Hend).
    destruct (snd (loop r0 [])); [discriminate|].
    intros [= <-]. destruct Hend as (_ & Hu & He). cbn [br set_br set_data].
    split; [exact Hu|]. split; congruence.
Qed.

(** X2.  A successful [Parse] has read its input to the end, and the source
    ended with a plain [io.EOF]: with any other final error of the source
    [Parse] fails. *)
Theorem Parse_success_drains_input (p p' : Parser) :
  Parse p = (p', None) ->
  unread (br p') = [] /\ srcerr (br p) = io_EOF /\ srcerr (br p') = io_EOF.
Proof. apply Parse_None_drained. Qed.

Lemma Parse_success_drains_input_witness :
  unread (br (fst (Parse (New "demo.png" demoPNG io_EOF)))) = [] /\
  srcerr (br (New "demo.png" demoPNG io_EOF)) = io_EOF /\
  srcerr (br (fst (Parse (New "demo.png" demoPNG io_EOF)))) = io_EOF.
Proof.
  apply (Parse_success_drains_input (New "demo.png" demoPNG io_EOF)).
  reflexivity.
Defined.

(** X3.  [Parse] cannot be repeated: after a successful [Parse] a second one
    on the same parser fails with [io.EOF], the error of [Peek] at the end
    of the input, and the stored document stays. *)
Theorem Parse_twice_fails_with_EOF (p p1 : Parser) :
  Parse p = (p1, None) ->
  exists p2, Parse p1 = (p2, Some io_EOF) /\ data p2 = data p1.
Proof.
  intros H. apply Parse_None_drained in H.
  destruct H as (U & _ & S).
  rewrite Parse_chunks. destruct (chunks_frame p1) as [D _].
  destruct (chunks_cases p1) as [(_ & E & _) | [(Hge & _) | H]].
  - rewrite E, S. eexists. split; [reflexivity|exact D].
  - rewrite U in Hge. cbn in Hge. lia.
  - destruct H as (s & r0 & Hu & _). rewrite U in Hu. discriminate.
Qed.

Lemma Parse_twice_fails_with_EOF_witness :
  exists p2,
    Parse (fst (Parse (New "demo.png" demoPNG io_EOF))) = (p2, Some io_EOF) /\
    data p2 = data (fst (Parse (New "demo.png" demoPNG io_EOF))).
Proof.
  apply (Parse_twice_fails_with_EOF (New "demo.png" demoPNG io_EOF)).
  reflexivity.
Defined.

(** X4.  [Parse] succeeds and stores [cs] exactly when the source ends with
    [io.EOF] and the input is the signature, whole chunks whose
    [Chunk] forms are [cs], and a tail that is empty, a length field, a
    length field and a type code of a chunk that declares data, or a chunk
    without its CRC. *)
Theorem Parse_succeeds_iff (p : Parser) (cs : list Chunk) :
  (exists p', Parse p = (p', None) /\ data p' = cs) <->
  (srcerr (br p) = io_EOF /\
   exists (ws : list wireChunk) (tail : list byte),
     unread (br p) = pngHeader ++ flat_map wire ws ++ tail /\
     Forall wellFormed ws /\ silentTail tail /\ cs = map parsed ws).
Proof.
  split.
  - intros (p' & HP & <-). rewrite Parse_chunks in HP.
    destruct (chunks_cases p) as [(_ & E & _) | [(_ & _ & E & _) | H]].
    + rewrite E in HP. discriminate.
    + rewrite E in HP. discriminate.
    + destruct H as (s & r0 & U & U0 & S0 & E). rewrite E in HP.
      cbn [fst snd] in HP.
      destruct (loop_inv r0 []) as (ws & tail & Hws & Hcs & Hu & _ & Hend).
      destruct (snd (loop r0 [])); [discriminate|].
      injection HP as <-. destruct Hend as (T & _ & He).
      split; [congruence|]. exists ws, tail. cbn [data set_data].
      rewrite U, <- U0, Hu. auto.
  - intros (He & ws & tail & U & Hws & T & ->).
    destruct (chunks_wire p ws tail Hws U) as (r0 & U0 & S0 & E0).
    rewrite <- U0 in T.
    destruct (loop_silentTail r0 (map parsed ws) T) as (r' & E');
      [congruence|].
    rewrite E' in E0. cbn [fst snd] in E0. rewrite Parse_chunks, E0.
    cbn [fst snd]. eexists. split; reflexivity.
Qed.

(** X5.  Every error of [Parse] is one of three: with fewer than eight bytes
    ahead, the error the source ends with; with eight bytes that are not
    the signature, [input not a PNG]; otherwise [unable to read chunk
    length], [type], [data] or [CRC], wrapping the source's final error,
    or [io.ErrUnexpectedEOF] when that is [io.EOF].  The errors [unable to
    read header] and [short read on chunk CRC] never come out. *)
Theorem Parse_error_is_one_of (p p' : Parser) (e : error) :
  Parse p = (p', Some e) ->
  (length (unread (br p)) < 8 /\ e = srcerr (br p)) \/
  (8 <= length (unread (br p)) /\ firstn 8 (unread (br p)) <> pngHeader /\
   e = errors_New "input not a PNG") \/
  (firstn 8 (unread (br p)) = pngHeader /\
   exists field, In field chunkFields /\
                 e = chunkReadError field (unexpected (srcerr (br p)))).
Proof.
  rewrite Parse_chunks.
  destruct (chunks_cases p) as [(Hlt & E & _) | [(Hge & Hne & E & _) | H]].
  - rewrite E. intros [= _ <-]. auto.
  - rewrite E. intros [= _ <-]. auto.
  - destruct H as (s & r0 & U & U0 & S0 & E). rewrite E. cbn [fst snd].
    destruct (loop_inv r0 []) as (ws & tail & _ & _ & _ & _ & Hend).
    destruct (snd (loop r0 [])) as [e'|]; [|discriminate].
    intros [= _ <-]. right. right. split; [rewrite U; reflexivity|].
    rewrite <- S0. exact Hend.
Qed.

Lemma Parse_error_is_one_of_witness :
  (length (unread (br (New "cut.png" cutInData io_EOF))) < 8 /\
   chunkReadError "data" io_ErrUnexpectedEOF
   = srcerr (br (New "cut.png" cutInData io_EOF))) \/
  (8 <= length (unread (br (New "cut.png" cutInData io_EOF))) /\
   firstn 8 (unread (br (New "cut.png" cutInData io_EOF))) <> pngHeader /\
   chunkReadError "data" io_ErrUnexpectedEOF = errors_New "input not a PNG") \/
  (firstn 8 (unread (br (New "cut.png" cutInData io_EOF))) = pngHeader /\
   exists field,
     In field chunkFields /\
     chunkReadError "data" io_ErrUnexpectedEOF
     = chunkReadError field
         (unexpected (srcerr (br (New "cut.png" cutInData io_EOF))))).
Proof.
  apply (Parse_error_is_one_of
           (New "cut.png" cutInData io_EOF)
           (fst (Parse (New "cut.png" cutInData io_EOF)))).
  reflexivity.
Defined.

(** X6.  The input ends inside the CRC of its last chunk, after all its data:
    with no CRC byte left [Parse] succeeds and drops that chunk; with one
    to three left it fails with [unable to read chunk CRC] wrapping
    [io.ErrUnexpectedEOF]. *)
Theorem Parse_input_ends_in_CRC
        (p : Parser) (ws : list wireChunk) (len ty : array4)
        (d part : list byte) :
  Forall wellFormed ws ->
  length d = N.to_nat (Uint32_4 len) ->
  length part < 4 ->
  reads p (pngHeader ++ flat_map wire ws
           ++ slice4 len ++ slice4 ty ++ d ++ part) ->
  exists p',
    Parse p =
      (p', match part with
           | [] => None
           | _ :: _ => Some (chunkReadError "CRC" io_ErrUnexpectedEOF)
           end) /\
    data p' = match part with
              | [] => map parsed ws
              | _ :: _ => data p
              end.
Proof.
  intros Hws Hd Hlen [Hu He].
  destruct (chunks_wire p ws _ Hws Hu) as (r0 & U0 & S0 & E0).
  rewrite He in S0.
  destruct (readChunk_short_crc r0 len ty d part U0 Hd Hlen S0)
    as (r1 & _ & _ & E1).
  rewrite loop_step, E1 in E0. rewrite Parse_chunks, E0.
  destruct part; cbn [fst snd]; eexists; split; reflexivity.
Qed.

Lemma Parse_input_ends_in_CRC_witness :
  exists p',
    Parse (New "cut.png"
               (pngHeader ++ wire demoIHDR ++ slice4 (wLength demoIDAT)
                ++ slice4 (wType demoIDAT) ++ wData demoIDAT ++ [xe5; x27])
               io_EOF) =
      (p', Some (chunkReadError "CRC" io_ErrUnexpectedEOF)) /\
    data p' = [].
Proof.
  apply (Parse_input_ends_in_CRC
           (New "cut.png"
                (pngHeader ++ wire demoIHDR ++ slice4 (wLength demoIDAT)
                 ++ slice4 (wType demoIDAT) ++ wData demoIDAT ++ [xe5; x27])
                io_EOF)
           [demoIHDR] (wLength demoIDAT) (wType demoIDAT) (wData demoIDAT)
           [xe5; x27]).
  - repeat constructor.
  - reflexivity.
  - simpl. lia.
  - split; reflexivity.
Defined.

(** X7.  The input ends one to three bytes into a length field: [Parse] fails
    with [unable to read chunk length] wrapping [io.ErrUnexpectedEOF], and
    the chunks read before are not stored. *)
Theorem Parse_input_ends_in_length
        (p : Parser) (ws : list wireChunk) (part : list byte) :
  Forall wellFormed ws ->
  part <> [] -> length part < 4 ->
  reads p (pngHeader ++ flat_map wire ws ++ part) ->
  exists p',
    Parse p = (p', Some (chunkReadError "length" io_ErrUnexpectedEOF)) /\
    data p' = data p.
Proof.
  intros Hws Hne Hlen [Hu He].
  destruct (chunks_wire p ws _ Hws Hu) as (r0 & U0 & S0 & E0).
  rewrite He in S0. rewrite <- U0 in Hne, Hlen.
  destruct (readChunk_short_length r0 Hne Hlen S0) as (r1 & E1).
  rewrite loop_step, E1 in E0. rewrite Parse_chunks, E0.
  cbn [fst snd]. eexists. split; reflexivity.
Qed.

Lemma Parse_input_ends_in_length_witness :
  exists p',
    Parse (New "cut.png" (pngHeader ++ wire demoIHDR ++ [x00; x00]) io_EOF) =
      (p', Some (chunkReadError "length" io_ErrUnexpectedEOF)) /\
    data p' = [].
Proof.
  apply (Parse_input_ends_in_length
           (New "cut.png" (pngHeader ++ wire demoIHDR ++ [x00; x00]) io_EOF)
           [demoIHDR] [x00; x00]).
  - repeat constructor.
  - discriminate.
  - simpl. lia.
  - split; reflexivity.
Defined.

(** X8.  A source that delivers a whole PNG stream and then fails instead of
    reporting [io.EOF]: [Parse] fails with [unable to read chunk length]
    wrapping that failure, and none of the chunks is stored. *)
Theorem Parse_source_failure_after_last_chunk
        (p : Parser) (ws : list wireChunk) (code : nat) :
  Forall wellFormed ws ->
  unread (br p) = pngHeader ++ flat_map wire ws ->
  srcerr (br p) = io_failure code ->
  exists p',
    Parse p = (p', Some (chunkReadError "length" (io_failure code))) /\
    data p' = data p.
Proof.
  intros Hws Hu He.
  rewrite <- (app_nil_r (flat_map wire ws)) in Hu.
  destruct (chunks_wire p ws [] Hws Hu) as (r0 & U0 & S0 & E0).
  rewrite loop_step in E0. unfold readChunk in E0.
  rewrite (ReadFull_end r0 4 U0) in E0 by lia.
  rewrite S0, He in E0. cbn [is_EOF not_nil fst snd] in E0.
  rewrite Parse_chunks, E0. cbn [fst snd]. eexists. split; reflexivity.
Qed.

Lemma Parse_source_failure_after_last_chunk_witness :
  exists p',
    Parse (New "demo.png" demoPNG (io_failure 5)) =
      (p', Some (chunkReadError "length" (io_failure 5))) /\
    data p' = [].
Proof.
  apply (Parse_source_failure_after_last_chunk
           (New "demo.png" demoPNG (io_failure 5)) demoChunks 5).
  - repeat constructor.
  - reflexivity.
  - reflexivity.
Defined.

(* ===================================================================== *)
(** ** The encoder and a consumer that stops early                        *)
(* ===================================================================== *)

Lemma firstn_app_short {A : Type} (n : nat) (a b : list A) :
  n <= length a -> firstn n (a ++ b) = firstn n a.
Proof.
  intros H. rewrite firstn_app.
  replace (n - length a) with 0 by lia. cbn. apply app_nil_r.
Qed.

(** One write on a pipe whose consumer has taken all of [pre]. *)
Lemma Write_step (d0 : list byte) (k0 : nat) (c0 : option (option error))
      (w : PipeWriter) (pre bs : list byte) :
  wrote d0 k0 c0 w pre ->
  (snd (Write w bs) = None /\ wrote d0 k0 c0 (fst (Write w bs)) (pre ++ bs)) \/
  (snd (Write w bs) = Some io_ErrClosedPipe /\
   delivered (fst (Write w bs)) = d0 ++ firstn k0 (pre ++ bs) /\
   closedWith (fst (Write w bs)) = c0 /\
   k0 <= length (pre ++ bs) /\
   (k0 = length pre \/ k0 < length (pre ++ bs))).
Proof.
  intros (Hd & Hk & Hle & Hc). unfold Write, wrote. rewrite Hk.
  destruct ((0 <? k0 - length pre) && (length bs <=? k0 - length pre)) eqn:E.
  - left. apply andb_true_iff in E. destruct E as [E1 E2].
    apply Nat.ltb_lt in E1. apply Nat.leb_le in E2.
    cbn [fst snd delivered demand closedWith].
    rewrite Hd, length_app, <- app_assoc.
    repeat split; auto; [f_equal; lia | lia].
  - right. apply andb_false_iff in E.
    cbn [fst snd delivered demand closedWith].
    rewrite Hd, length_app, <- app_assoc, firstn_app.
    rewrite (firstn_all2 pre) by lia.
    repeat split; auto.
    + destruct E as [E|E]; [apply Nat.ltb_ge in E | apply Nat.leb_gt in E]; lia.
    + destruct E as [E|E]; [apply Nat.ltb_ge in E | apply Nat.leb_gt in E]; lia.
Qed.

Lemma stopped_more (d0 : list byte) (k0 : nat) (c0 : option (option error))
      (w : PipeWriter) (pre more : list byte) :
  stopped d0 k0 c0 w pre -> stopped d0 k0 c0 w (pre ++ more).
Proof.
  intros (Hd & Hk & Hc). unfold stopped.
  rewrite firstn_app_short by lia. rewrite length_app.
  repeat split; auto. lia.
Qed.

Lemma stop_here (d0 : list byte) (k0 : nat) (c0 : option (option error))
      (w : PipeWriter) (pre bs more full : list byte) :
  delivered w = d0 ++ firstn k0 (pre ++ bs) ->
  closedWith w = c0 ->
  k0 <= length (pre ++ bs) ->
  k0 = length pre \/ k0 < length (pre ++ bs) ->
  0 < length (bs ++ more) ->
  full = (pre ++ bs) ++ more ->
  stopped d0 k0 c0 w full.
Proof.
  intros Hd Hc Hle Hk Hpos ->. unfold stopped.
  rewrite firstn_app_short by exact Hle.
  rewrite !length_app in *. repeat split; auto. lia.
Qed.

(** Splits the next write of the goal on a pipe whose state is known. *)
Ltac write_step :=
  match goal with
  | Hw : wrote ?d ?k ?c ?w0 ?pre0 |- context [Write ?w0 ?bs] =>
      let E := fresh "E" in
      let W := fresh "W" in
      let D := fresh "D" in
      let C := fresh "C" in
      let K := fresh "K" in
      let K' := fresh "K" in
      let w' := fresh "w" in
      let e' := fresh "e" in
      destruct (Write_step d k c w0 pre0 bs Hw)
        as [(E & W) | (E & D & C & K & K')];
      destruct (Write w0 bs) as [w' e'];
      cbn [fst snd] in E, W || cbn [fst snd] in E, D, C;
      subst e'; cbn [not_nil]
  end.

(** Closes the branch of a failed write, [more] being what the iteratee
    would still have written. *)
Ltac write_failed m :=
  right; cbn [fst snd]; split; [reflexivity|]; split; [discriminate|];
  eapply stop_here with (more := m);
  [eassumption | eassumption | eassumption | eassumption
  | rewrite ?length_app, ?length_slice4; cbn [length]; lia
  | rewrite <- ?app_assoc, ?app_nil_r; reflexivity].

(** One call of the iteratee of [StripTags] on a pipe whose consumer has
    taken all of [pre]: either every write went through and the walk goes
    on, or a write failed, the walk stops with an error, and the consumer
    has taken what its demand allowed. *)
Lemma stripChunk_step (d0 : list byte) (k0 : nat) (c0 : option (option error))
      (w : PipeWriter) (pre : list byte) (ch : Chunk) (err : option error) :
  wrote d0 k0 c0 w pre ->
  (snd (stripChunk ch (w, err)) = true /\
   snd (fst (stripChunk ch (w, err))) = err /\
   wrote d0 k0 c0 (fst (fst (stripChunk ch (w, err)))) (pre ++ stripped ch)) \/
  (snd (stripChunk ch (w, err)) = false /\
   snd (fst (stripChunk ch (w, err))) <> None /\
   stopped d0 k0 c0 (fst (fst (stripChunk ch (w, err)))) (pre ++ stripped ch)).
Proof.
  intros H. unfold stripChunk, stripped, isCritical, emitChunk.
  destruct (Type_ ch);
    match goal with
    | |- context [map_lookup passThrough ?t] =>
        let v := eval vm_compute in (map_lookup passThrough t) in
        change (map_lookup passThrough t) with v
    end;
    match goal with
    | |- context [typeCode ?t] =>
        let v := eval vm_compute in (typeCode t) in
        change (typeCode t) with v
    | _ => idtac
    end;
    try (left; cbn [fst snd]; rewrite app_nil_r; auto; fail).
  all: write_step;
    [| match goal with
       | |- context [stopped _ _ _ _ (_ ++ _ ++ ?T ++ _ ++ _)] =>
           write_failed (T ++ Data ch ++ slice4 (CRC ch))
       end].
  all: write_step; [| write_failed (Data ch ++ slice4 (CRC ch))].
  all: write_step; [| write_failed (slice4 (CRC ch))].
  all: write_step; [| write_failed (@nil byte)].
  all: left; cbn [fst snd]; split; [reflexivity|]; split; [reflexivity|];
    match goal with
    | W : wrote _ _ _ ?w0 _ |- wrote _ _ _ ?w0 _ =>
        rewrite <- !app_assoc in W; exact W
    end.
Qed.

(** The walk of [StripTags] on such a pipe. *)
Lemma walk_stripChunk_step (cs : list Chunk) (d0 : list byte) (k0 : nat)
      (c0 : option (option error)) (w : PipeWriter) (pre : list byte) :
  wrote d0 k0 c0 w pre ->
  (snd (walk stripChunk cs (w, None)) = None /\
   wrote d0 k0 c0 (fst (walk stripChunk cs (w, None)))
         (pre ++ flat_map stripped cs)) \/
  (snd (walk stripChunk cs (w, None)) <> None /\
   stopped d0 k0 c0 (fst (walk stripChunk cs (w, None)))
           (pre ++ flat_map stripped cs)).
Proof.
  revert w pre. induction cs as [|ch cs IH]; intros w pre H; cbn [walk flat_map].
  - left. cbn [fst snd]. rewrite app_nil_r. auto.
  - destruct (stripChunk_step d0 k0 c0 w pre ch None H)
      as [(Ec & Ee & W) | (Ec & Ee & S)];
      destruct (stripChunk ch (w, None)) as [[w' e'] cont];
      cbn [fst snd] in *; subst cont; cbn [negb].
    + subst e'. rewrite app_assoc. apply IH. exact W.
    + right. cbn [fst snd]. split; [exact Ee|].
      rewrite app_assoc. apply stopped_more. exact S.
Qed.

Lemma flat_map_stripped (cs : list Chunk) :
  flat_map stripped cs = flat_map emitChunk (filter isCritical cs).
Proof.
  induction cs as [|c cs IH]; [reflexivity|]. cbn [flat_map filter].
  unfold stripped at 1. destruct (isCritical c); cbn [flat_map app];
    rewrite IH; reflexivity.
Qed.

(** X9.  [StripTags] and a consumer that closes the read half after [k]
    bytes: the consumer has received exactly the first [k] bytes of the
    whole stripped stream; the goroutine always closes the pipe, and it
    closes it without an error exactly when the consumer took the whole
    stream. *)
Theorem StripTags_early_close_delivers_prefix (p : Parser) (k : nat) :
  delivered (StripTags p (Some k)) = firstn k (delivered (StripTags p None)) /\
  closedWith (StripTags p (Some k)) <> None /\
  (closedWith (StripTags p (Some k)) = Some None <->
   length (delivered (StripTags p None)) <= k).
Proof.
  rewrite StripTags_open. cbn [delivered]. rewrite <- flat_map_stripped.
  unfold StripTags, WalkChunks.
  assert (H0 : wrote [] k None (Pipe (Some k)) []).
  { unfold wrote, Pipe. cbn. repeat split; auto; [f_equal; lia | lia]. }
  destruct (Write_step [] k None (Pipe (Some k)) [] pngHeader H0)
    as [(E1 & W1) | (E1 & D1 & C1 & K1 & K1')];
    destruct (Write (Pipe (Some k)) pngHeader) as [w1 e1];
    cbn [fst snd app] in *; subst e1; cbn [not_nil].
  - destruct (walk_stripChunk_step (data p) [] k None w1 pngHeader W1)
      as [(Ee & W) | (Ee & S)];
      destruct (walk stripChunk (data p) (w1, None)) as [w2 e2];
      cbn [fst snd] in *.
    + subst e2. destruct W as (Wd & Wk & Wle & Wc).
      unfold CloseWithError. rewrite Wc. cbn [delivered closedWith app] in *.
      rewrite Wd, firstn_all2 by exact Wle.
      split; [reflexivity|]. split; [discriminate|]. split; auto.
    + destruct S as (Sd & Sk & Sc).
      unfold CloseWithError. rewrite Sc. cbn [delivered closedWith app] in *.
      split; [exact Sd|]. split; [discriminate|].
      split; [intros [= ->]; contradiction | lia].
  - unfold CloseWithError. rewrite C1. cbn [delivered closedWith].
    rewrite D1, firstn_app_short by exact K1.
    split; [reflexivity|]. split; [discriminate|].
    split; [discriminate|]. cbn in K1'. rewrite length_app.
    change (length pngHeader) with 8. intros Hk. lia.
Qed.

(* ===================================================================== *)
(** ** [String], [WalkChunks], [PrintHeader] and the command              *)
(* ===================================================================== *)

(** X14.  The name [String] gives a classification starts with four characters
    that [getChunkType] maps back to that classification; so the names
    are pairwise distinct, and each named kind is printed under its own
    type code. *)
Theorem String_starts_with_own_code (t : chunkType) :
  getChunkType (firstn 4 (list_byte_of_string (chunkType_String t))) = t.
Proof. destruct t; reflexivity. Qed.

Lemma walk_all_true {S : Type} (fn : Chunk -> S -> S * bool)
      (cs : list Chunk) (s : S) :
  (forall c s', In c cs -> snd (fn c s') = true) ->
  walk fn cs s = fold_left (fun s' c => fst (fn c s')) cs s.
Proof.
  revert s. induction cs as [|c cs IH]; intros s H; [reflexivity|].
  cbn [walk fold_left]. pose proof (H c s (or_introl eq_refl)) as Hc.
  destruct (fn c s) as [s1 b]. cbn [fst snd] in *. subst b. cbn [negb].
  apply IH. intros c' s' Hin. apply H. right. exact Hin.
Qed.



Lemma printHeaderChunk_spec (path : string) (ch : Chunk) (c : Console) :
  exists c',
    printHeaderChunk path ch c = Some c' /\
    stderr c' = stderr c /\
    length (stdout c') = length (stdout c) + (if isHeader ch then 9 else 0).
Proof.
  unfold printHeaderChunk, isHeader.
  destruct (chunkType_eqb (Type_ ch) ChunkTypeHeader).
  - unfold parseHeader.
    destruct (negb (length (Data ch) =? 13)) eqn:E.
    + eexists. split; [reflexivity|]. cbn [Printf stdout stderr].
      rewrite !length_app. cbn [length]. split; [reflexivity|lia].
    + apply negb_false_iff, Nat.eqb_eq in E.
      destruct (Data ch) as [|d0 l]; [discriminate|].
      do 12 (destruct l as [|? l]; [discriminate|]).
      destruct l; [|discriminate].
      cbn [slice Nat.leb andb length skipn firstn Nat.sub Uint32 index
           nth_error].
      eexists. split; [reflexivity|]. cbn [Printf stdout stderr].
      rewrite !length_app. cbn [length]. split; [reflexivity|lia].
  - exists c. split; [reflexivity|]. split; [reflexivity|lia].
Qed.

(** X15.  [PrintHeader] never panics and never writes to standard error: for
    every document it makes nine writes to standard output for each chunk
    classified Header, whatever that chunk's data, and none for any other
    chunk. *)
Theorem PrintHeader_nine_writes_per_header (p : Parser) (c : Console) :
  exists c',
    PrintHeader p c = Some c' /\
    stderr c' = stderr c /\
    length (stdout c') =
      length (stdout c) + 9 * length (filter isHeader (data p)).
Proof.
  unfold PrintHeader. generalize (Path p) as path. intros path.
  revert c. induction (data p) as [|ch chs IH]; intros c.
  - exists c. cbn. split; [reflexivity|]. split; [reflexivity|lia].
  - cbn [printHeaders filter].
    destruct (printHeaderChunk_spec path ch c) as (c1 & E1 & S1 & L1).
    rewrite E1. destruct (IH c1) as (c2 & E2 & S2 & L2).
    exists c2. split; [exact E2|]. split; [congruence|].
    rewrite L2, L1. destruct (isHeader ch); cbn [length]; lia.
Qed.



(** X17.  The filter method of a header does not reach the output of
    [PrintHeader]: the line labelled [Filter Method] carries the bit
    depth, so two documents that differ only in byte 11 of a header
    chunk's data are printed alike. *)
Theorem PrintHeader_ignores_filter_method
        (path : string) (r : Reader) (before after : list Chunk)
        (len crc : array4)
        (d0 d1 d2 d3 d4 d5 d6 d7 d8 d9 d10 d11 d11' d12 : byte)
        (c : Console) :
  PrintHeader
    {| Path := path; br := r;
       data := before
               ++ {| Length := len; CRC := crc; Type_ := ChunkTypeHeader;
                     Data := [d0; d1; d2; d3; d4; d5; d6; d7; d8; d9; d10;
                              d11; d12] |} :: after |} c =
  PrintHeader
    {| Path := path; br := r;
       data := before
               ++ {| Length := len; CRC := crc; Type_ := ChunkTypeHeader;
                     Data := [d0; d1; d2; d3; d4; d5; d6; d7; d8; d9; d10;
                              d11'; d12] |} :: after |} c.
Proof.
  unfold PrintHeader. cbn [Path data]. revert c.
  induction before as [|b before IH]; intros c; cbn [app printHeaders].
  - reflexivity.
  - destruct (printHeaderChunk path b c); [apply IH|reflexivity].
Qed.

(** [Parse] sees only the input ahead and the stored document. *)
Lemma Parse_sameInput (p1 p2 : Parser) :
  sameInput (br p1) (br p2) -> data p1 = data p2 ->
  snd (Parse p1) = snd (Parse p2) /\
  data (fst (Parse p1)) = data (fst (Parse p2)) /\
  sameInput (br (fst (Parse p1))) (br (fst (Parse p2))).
Proof.
  intros S D.
  destruct (chunks_sameInput p1 p2 S) as (SU & SC & SE).
  destruct (chunks_frame p1) as [D1 _]. destruct (chunks_frame p2) as [D2 _].
  rewrite !Parse_chunks, SE, SC.
  destruct (snd (chunks p2)); cbn [fst snd data set_data br].
  - split; [reflexivity|]. split; [congruence|exact SU].
  - split; [reflexivity|]. split; [reflexivity|exact SU].
Qed.

Lemma Parse_Path (p : Parser) : Path (fst (Parse p)) = Path p.
Proof.
  rewrite Parse_chunks. destruct (chunks_frame p) as [_ HP].
  destruct (snd (chunks p)); cbn [fst Path set_data]; exact HP.
Qed.

Lemma Parse_error_keeps_data (p : Parser) :
  snd (Parse p) <> None -> data (fst (Parse p)) = data p.
Proof.
  rewrite Parse_chunks. destruct (chunks_frame p) as [D _].
  destruct (snd (chunks p)); cbn [fst snd]; [intros _; exact D|].
  intros H. contradiction.
Qed.

Lemma tagsIteratee_spec (ch : Chunk) (c : Console) :
  tagsIteratee ch c =
  ({| stdout := stdout c ++ tagLines ch; stderr := stderr c |}, true).
Proof.
  unfold tagsIteratee, tagLines, isCritical, Printf. destruct c as [out err].
  destruct (Type_ ch); cbn; rewrite <- ?app_assoc, ?app_nil_r; reflexivity.
Qed.

Lemma walk_tagsIteratee (cs : list Chunk) (c : Console) :
  walk tagsIteratee cs c =
  {| stdout := stdout c ++ flat_map tagLines cs; stderr := stderr c |}.
Proof.
  revert c. induction cs as [|ch cs IH]; intros c; cbn [walk flat_map].
  - rewrite app_nil_r. destruct c; reflexivity.
  - rewrite tagsIteratee_spec. cbn [negb]. rewrite IH. cbn [stdout stderr].
    rewrite <- app_assoc. reflexivity.
Qed.

(** What one round of the loop of [main] does. *)
Lemma mainStep_spec (showTags : bool) (p : Parser) (c : Console) :
  (~ signatureAhead p ->
   stderr (snd (mainStep showTags p c)) =
     stderr c ++ [{| format := "%s is not a PNG\n";
                     operands := [op_string (Path p)] |}] /\
   stdout (snd (mainStep showTags p c)) = stdout c /\
   data (fst (mainStep showTags p c)) = data p /\
   unread (br (fst (mainStep showTags p c))) = unread (br p)) /\
  (signatureAhead p ->
   match snd (Parse p) with
   | Some e =>
       stderr (snd (mainStep showTags p c)) =
         stderr c ++ [{| format := "problem parsing %s: %v";
                         operands := [op_string (Path p);
                                      op_error (Some e)] |}] /\
       stdout (snd (mainStep showTags p c)) = stdout c /\
       data (fst (mainStep showTags p c)) = data p
   | None =>
       stderr (snd (mainStep showTags p c)) = stderr c /\
       stdout (snd (mainStep showTags p c)) =
         stdout c ++
         (if showTags then
            {| format := "%s tags:\n"; operands := [op_string (Path p)] |}
            :: flat_map tagLines (data (fst (Parse p)))
          else []) /\
       data (fst (mainStep showTags p c)) = data (fst (Parse p))
   end).
Proof.
  unfold mainStep, signatureAhead.
  destruct (IsPNG_spec p) as (r1 & S1 & E1). rewrite E1.
  destruct (length (unread (br p)) <? 8) eqn:E8.
  - apply Nat.ltb_lt in E8. cbn [negb orb not_nil fst snd Eprintf stdout
      stderr Path data br set_br]. split.
    + intros _. destruct S1 as [U1 _]. auto.
    + intros [s Hs]. rewrite Hs, length_app in E8. cbn in E8. lia.
  - apply Nat.ltb_ge in E8.
    destruct (bytes_Equal pngHeader (firstn 8 (unread (br p)))) eqn:Eq.
    + apply (starts_with_signature _ E8) in Eq.
      cbn [negb orb not_nil]. split; [intros H; contradiction|]. intros _.
      destruct (Parse_sameInput (set_br p r1) p S1 eq_refl) as (PE & PD & _).
      pose proof (Parse_Path (set_br p r1)) as PP. cbn [Path set_br] in PP.
      pose proof (Parse_error_keeps_data p) as Herr.
      destruct (Parse (set_br p r1)) as [p2 e2]. cbn [fst snd] in *.
      rewrite <- PE. destruct e2 as [e|]; cbn [not_nil].
      * cbn [fst snd Eprintf stdout stderr]. rewrite PP, PD.
        repeat split. apply Herr. rewrite <- PE. discriminate.
      * destruct showTags; cbn [fst snd]; [|rewrite app_nil_r; auto].
        unfold WalkChunks. rewrite walk_tagsIteratee.
        cbn [Printf stdout stderr]. rewrite <- app_assoc, PP, PD. auto.
    + cbn [negb orb not_nil fst snd Eprintf stdout stderr Path data br
           set_br]. split.
      * intros _. destruct S1 as [U1 _]. auto.
      * intros H. apply (starts_with_signature _ E8) in H. congruence.
Qed.

(** X20.  One round of the loop of [main].  With no signature ahead (also with
    fewer than eight bytes, or a failing source) it prints [is not a PNG]
    on standard error and leaves input and document alone.  With a
    signature ahead it calls [Parse]: on an error it prints [problem
    parsing] with that error and keeps the document; otherwise it stores
    the chunks and, with [-tags], prints the title line and then, for each
    chunk in order, its name unless it is IHDR, IDAT or IEND, and its data
    if it is iTXt or tEXt. *)
Theorem mainStep_reports (showTags : bool) (p : Parser) (c : Console) :
  (~ signatureAhead p ->
   stderr (snd (mainStep showTags p c)) =
     stderr c ++ [{| format := "%s is not a PNG\n";
                     operands := [op_string (Path p)] |}] /\
   stdout (snd (mainStep showTags p c)) = stdout c /\
   data (fst (mainStep showTags p c)) = data p /\
   unread (br (fst (mainStep showTags p c))) = unread (br p)) /\
  (signatureAhead p ->
   match snd (Parse p) with
   | Some e =>
       stderr (snd (mainStep showTags p c)) =
         stderr c ++ [{| format := "problem parsing %s: %v";
                         operands := [op_string (Path p);
                                      op_error (Some e)] |}] /\
       stdout (snd (mainStep showTags p c)) = stdout c /\
       data (fst (mainStep showTags p c)) = data p
   | None =>
       stderr (snd (mainStep showTags p c)) = stderr c /\
       stdout (snd (mainStep showTags p c)) =
         stdout c ++
         (if showTags then
            {| format := "%s tags:\n"; operands := [op_string (Path p)] |}
            :: flat_map tagLines (data (fst (Parse p)))
          else []) /\
       data (fst (mainStep showTags p c)) = data (fst (Parse p))
   end).
Proof. apply mainStep_spec. Qed.

Lemma tagLines_of_critical (cs : list Chunk) :
  flat_map tagLines (filter isCritical cs) =
  map (fun _ => paletteLine) (filter isPalette cs).
Proof.
  induction cs as [|c cs IH]; [reflexivity|]. cbn [filter].
  unfold isCritical at 1, isPalette at 1.
  destruct (Type_ c) eqn:T; cbn [chunkType_eqb]; try exact IH.
  all: match goal with
       | |- context [chunkType_eqb ?t ChunkTypePalette] =>
           let v := eval vm_compute in (chunkType_eqb t ChunkTypePalette) in
           change (chunkType_eqb t ChunkTypePalette) with v
       end; cbn [flat_map map]; rewrite IH;
    unfold tagLines, isCritical; rewrite T; reflexivity.
Qed.

(** X21.  A cleaned file shows no metadata: when the output of [StripTags] is
    given to the command with [-tags], nothing goes to standard error and
    standard output gets the title line followed by one [PLTE] line for
    each palette chunk of the original document, and nothing else. *)
Theorem tags_of_cleaned_file_are_palettes (p p1 q : Parser) (c : Console) :
  Parse p = (p1, None) ->
  reads q (delivered (StripTags p1 None)) ->
  stderr (snd (mainStep true q c)) = stderr c /\
  stdout (snd (mainStep true q c)) =
    stdout c ++
    {| format := "%s tags:\n"; operands := [op_string (Path q)] |}
    :: map (fun _ => paletteLine) (filter isPalette (data p1)).
Proof.
  intros HP Hq. apply Parse_chunkOK in HP.
  destruct (critical_as_wire (data p1) HP) as (W1 & W2 & W3).
  rewrite StripTags_open in Hq. cbn [delivered] in Hq. rewrite <- W2 in Hq.
  destruct (Parse_wire q _ W1 Hq) as (q1 & E & D). rewrite W3 in D.
  destruct (mainStep_spec true q c) as [_ H].
  assert (Hsig : signatureAhead q) by (destruct Hq as [U _]; eexists; exact U).
  specialize (H Hsig). rewrite E in H. cbn [fst snd] in H.
  destruct H as (He & Ho & _). split; [exact He|].
  rewrite Ho, D, tagLines_of_critical. reflexivity.
Qed.

Lemma tags_of_cleaned_file_are_palettes_witness :
  stderr (snd (mainStep true
                 (New "demo-cleaned.png"
                      (pngHeader ++ wire demoIHDR ++ wire demoIDAT
                       ++ wire demoIEND) io_EOF)
                 {| stdout := []; stderr := [] |})) = [] /\
  stdout (snd (mainStep true
                 (New "demo-cleaned.png"
                      (pngHeader ++ wire demoIHDR ++ wire demoIDAT
                       ++ wire demoIEND) io_EOF)
                 {| stdout := []; stderr := [] |})) =
    [{| format := "%s tags:\n";
        operands := [op_string "demo-cleaned.png"] |}].
Proof.
  apply (tags_of_cleaned_file_are_palettes
           (New "demo.png" demoPNG io_EOF)
           (fst (Parse (New "demo.png" demoPNG io_EOF)))
           (New "demo-cleaned.png"
                (pngHeader ++ wire demoIHDR ++ wire demoIDAT ++ wire demoIEND)
                io_EOF)
           {| stdout := []; stderr := [] |}).
  - reflexivity.
  - split; reflexivity.
Defined.

(** X22.  A batch of inputs none of which starts with the signature: [main]
    goes through all of them, prints one [is not a PNG] line per input on
    standard error, in order, nothing on standard output, and stores no
    document. *)
Theorem mainLoop_reports_every_non_png
        (showTags : bool) (parsers : list Parser) (c : Console) :
  Forall (fun p => ~ signatureAhead p) parsers ->
  stderr (snd (mainLoop showTags parsers c)) =
    stderr c ++ map notPNGLine parsers /\
  stdout (snd (mainLoop showTags parsers c)) = stdout c /\
  map data (fst (mainLoop showTags parsers c)) = map data parsers.
Proof.
  intros H. revert c. induction H as [|p ps Hp _ IH]; intros c.
  - cbn. rewrite app_nil_r. auto.
  - cbn [mainLoop map].
    destruct (mainStep_spec showTags p c) as [Hs _].
    destruct (Hs Hp) as (He & Ho & Hd & _).
    destruct (mainStep showTags p c) as [p1 c1]. cbn [fst snd] in *.
    destruct (IH c1) as (He' & Ho' & Hd').
    destruct (mainLoop showTags ps c1) as [ps1 c2]. cbn [fst snd map] in *.
    rewrite He', He, Ho', Ho, Hd, Hd', <- app_assoc. auto.
Qed.

Lemma mainLoop_reports_every_non_png_witness :
  stderr (snd (mainLoop true
                 [New "notes.txt" textFile io_EOF; New "empty.png" [] io_EOF]
                 {| stdout := []; stderr := [] |})) =
    [notPNGLine (New "notes.txt" textFile io_EOF);
     notPNGLine (New "empty.png" [] io_EOF)] /\
  stdout (snd (mainLoop true
                 [New "notes.txt" textFile io_EOF; New "empty.png" [] io_EOF]
                 {| stdout := []; stderr := [] |})) = [] /\
  map data (fst (mainLoop true
                   [New "notes.txt" textFile io_EOF;
                    New "empty.png" [] io_EOF]
                   {| stdout := []; stderr := [] |})) = [[]; []].
Proof.
  apply (mainLoop_reports_every_non_png true
           [New "notes.txt" textFile io_EOF; New "empty.png" [] io_EOF]
           {| stdout := []; stderr := [] |}).
  repeat constructor; intros [s Hs]; vm_compute in Hs; discriminate.
Defined.

(* ===================================================================== *)
(** ** The earlier revision of the package                                *)
(* ===================================================================== *)

(** The first revision of package [png] knows one type code, reads the
    signature byte by byte, and is otherwise the parser above.  Its
    [IsPNG], [Parse] and [parseHeader] are, word for word, the ones
    above; its [chunk] holds [Length] and [CRC] in slices made with four
    elements, which are the arrays of [Chunk] here. *)
Module Legacy.

(** [getChunkType] *)
Definition getChunkType (ct : list byte) : chunkType :=
  if (bytes_Compare ct ctHdr =? 0)%Z then ChunkTypeHeader
  else ChunkTypeUnknown.

(** [bufio.Reader.ReadByte]: fills an empty buffer, then hands out its
    first byte; at the end of the input it returns the source's error. *)
Definition ReadByte (r : Reader) : Reader * byte * option error :=
  let r := match buffered r with
           | [] => fill r
           | _ :: _ => r
           end in
  match buffered r with
  | [] => (r, x00, Some (srcerr r))
  | b :: rest =>
      ({| buffered := rest; source := source r; srcerr := srcerr r |},
       b, None)
  end.

(** The loop [for i := 0; i < 8; i++] of [chunks], with [n] rounds to
    go; [Some err] is its [return] with [unable to read header]. *)
Fixpoint readFileHdr (n : nat) (r : Reader) (fileHdr : list byte)
  : Reader * list byte * option error :=
  match n with
  | 0 => (r, fileHdr, None)
  | S n' =>
      let '(r, b, err) := ReadByte r in
      if not_nil err then
        (r, fileHdr,
         Some (fmt_Errorf "unable to read header: %v" [arg_err err]))
      else readFileHdr n' r (fileHdr ++ [b])
  end.

(** The body of the [for] loop of [chunks]. *)
Definition readChunk (r : Reader) : iteration :=
  let c := zeroChunk in
  (* Read LENGTH *)
  let '(r, got, err) := ReadFull r 4 in
  let c := set_Length c (copy4 (Length c) got) in
  if is_EOF err then Break r
  else if not_nil err then
    Return r (fmt_Errorf "unable to read chunk length: %v" [arg_err err])
  else
  (* Read TYPE *)
  let '(r, got, err) := ReadFull r 4 in
  let chType := filled 4 got in
  if is_EOF err then Break r
  else if not_nil err then
    Return r (fmt_Errorf "unable to read chunk type: %v" [arg_err err])
  else
  let c := set_Type c (getChunkType chType) in
  (* Read DATA *)
  let l := N.to_nat (Uint32_4 (Length c)) in
  let '(r, got, err) := ReadFull r l in
  let data := filled l got in
  if is_EOF err then Break r
  else if not_nil err then
    Return r (fmt_Errorf "unable to read chunk data: %v" [arg_err err])
  else
  let c := set_Data c data in
  (* Read CRC *)
  let '(r, got, err) := ReadFull r 4 in
  let read := length got in
  let c := set_CRC c (copy4 (CRC c) got) in
  if is_EOF err then Break r
  else if not_nil err then
    Return r (fmt_Errorf "unable to read chunk CRC: %v" [arg_err err])
  else if negb (read =? 4) then
    Return r (fmt_Errorf "short read on chunk CRC (got %d bytes, expected %d)"
                         [arg_int read; arg_int 4])
  else Append r c.

(** What the one-code registry makes of a classification. *)
Definition coarse (t : chunkType) : chunkType :=
  match t with
  | ChunkTypeHeader => ChunkTypeHeader
  | _ => ChunkTypeUnknown
  end.

Definition coarsen (c : Chunk) : Chunk := set_Type c (coarse (Type_ c)).

Definition coarsenIteration (i : iteration) : iteration :=
  match i with
  | Append r c => Append r (coarsen c)
  | Break r => Break r
  | Return r e => Return r e
  end.

Lemma legacy_readChunk_Append_shorter (r r' : Reader) (c : Chunk) :
  readChunk r = Append r' c -> length (unread r') < length (unread r).
Proof.
  unfold readChunk.
  destruct (ReadFull r 4) as [[r1 g1] e1] eqn:E1.
  destruct e1 as [e1|]; [destruct e1; discriminate|]. cbn [is_EOF not_nil].
  destruct (ReadFull r1 4) as [[r2 g2] e2] eqn:E2.
  destruct e2 as [e2|]; [destruct e2; discriminate|]. cbn [is_EOF not_nil].
  destruct (ReadFull r2 _) as [[r3 g3] e3] eqn:E3.
  destruct e3 as [e3|]; [destruct e3; discriminate|]. cbn [is_EOF not_nil].
  destruct (ReadFull r3 4) as [[r4 g4] e4] eqn:E4.
  destruct e4 as [e4|]; [destruct e4; discriminate|]. cbn [is_EOF not_nil].
  destruct (negb _); [discriminate|]. intros [= <- _].
  apply ReadFull_unread in E1, E2, E3, E4.
  destruct E1 as (U1 & _ & G1 & L1), E2 as (U2 & _ & _ & _),
           E3 as (U3 & _ & _ & _), E4 as (U4 & _ & _ & _).
  specialize (L1 eq_refl).
  assert (length g1 <= length (unread r)).
  { rewrite G1 at 1. rewrite length_firstn. lia. }
  rewrite U4, U3, U2, U1. rewrite !length_skipn. lia.
Qed.

(** The [for] loop of [chunks]. *)
Equations? loop (r : Reader) (chunks : list Chunk)
  : Reader * list Chunk * option error
  by wf (length (unread r)) lt :=
loop r chunks with inspect (readChunk r) := {
  | exist _ (Break r') _ => (r', chunks, None)
  | exist _ (Return r' err) _ => (r', chunks, Some err)
  | exist _ (Append r' c) H => loop r' (chunks ++ [c]) }.
Proof. eapply legacy_readChunk_Append_shorter; eassumption. Qed.

(** [chunks] *)
Definition chunks (p : Parser) : Parser * list Chunk * option error :=
  let chunks : list Chunk := [] in
  let '(p, b, err) := IsPNG p in
  if not_nil err then (p, chunks, err)
  else if negb b then (p, chunks, Some (errors_New "input not a PNG"))
  else
  let '(r, fileHdr, err) := readFileHdr 8 (br p) [] in
  let p := set_br p r in
  match err with
  | Some e => (p, chunks, Some e)
  | None =>
      let '(r, chunks, err) := loop (br p) chunks in
      (set_br p r, chunks, err)
  end.

(** [Parse] *)
Definition Parse (p : Parser) : Parser * option error :=
  let '(p, chunks, err) := chunks p in
  if not_nil err then (p, err)
  else (set_data p chunks, None).

End Legacy.

Lemma legacy_getChunkType_coarse (ct : list byte) :
  Legacy.getChunkType ct = Legacy.coarse (getChunkType ct).
Proof.
  unfold Legacy.getChunkType, getChunkType.
  destruct (bytes_Compare ct ctHdr =? 0)%Z; [reflexivity|].
  repeat match goal with
         | |- context [if ?b then _ else _] => destruct b; [reflexivity|]
         end.
  reflexivity.
Qed.

(** The loop body of the first revision does what the present one does,
    with the classification coarsened. *)
Lemma legacy_readChunk (r : Reader) :
  Legacy.readChunk r = Legacy.coarsenIteration (readChunk r).
Proof.
  unfold Legacy.readChunk, readChunk.
  repeat match goal with
         | |- context [ReadFull ?a ?n] =>
             destruct (ReadFull a n) as [[? ?] [[]|]];
             cbn [is_EOF not_nil Legacy.coarsenIteration Length set_Type
                  set_Length zeroChunk];
             try reflexivity
         end.
  match goal with
  | |- context [if negb ?b then _ else _] => destruct (negb b)
  end; [reflexivity|]. cbn [Legacy.coarsenIteration]. f_equal.
  unfold Legacy.coarsen, set_CRC, set_Data, set_Type, set_Length.
  cbn [Length CRC Type_ Data]. rewrite legacy_getChunkType_coarse.
  reflexivity.
Qed.


Lemma legacy_loop_step (r : Reader) (acc : list Chunk) :
  Legacy.loop r acc =
  match Legacy.readChunk r with
  | Append r' c => Legacy.loop r' (acc ++ [c])
  | Break r' => (r', acc, None)
  | Return r' err => (r', acc, Some err)
  end.
Proof.
  funelim (Legacy.loop r acc).
  - rewrite H. reflexivity.
  - rewrite e. reflexivity.
  - rewrite e. reflexivity.
Qed.

(** The loop of the first revision collects the chunks the present one
    collects, with the classification coarsened. *)
Lemma legacy_loop (r : Reader) (acc : list Chunk) :
  Legacy.loop r (map Legacy.coarsen acc) =
  (fst (fst (loop r acc)), map Legacy.coarsen (snd (fst (loop r acc))),
   snd (loop r acc)).
Proof.
  funelim (loop r acc); rewrite legacy_loop_step, legacy_readChunk.
  - rewrite H. cbn [Legacy.coarsenIteration].
    match goal with IH : Legacy.loop _ _ = _ |- _ => rewrite <- IH end.
    rewrite map_app. reflexivity.
  - rewrite e. reflexivity.
  - rewrite e. reflexivity.
Qed.

Lemma ReadByte_next (r : Reader) (b : byte) (rest : list byte) :
  unread r = b :: rest ->
  exists r', Legacy.ReadByte r = (r', b, None) /\
             unread r' = rest /\ srcerr r' = srcerr r.
Proof.
  unfold Legacy.ReadByte, unread. intros H.
  destruct (buffered r) as [|b0 bs] eqn:Eb.
  - cbn [app] in H. unfold fill. rewrite Eb, H. cbn [length app].
    assert (Hf : defaultBufSize - 0 = S (defaultBufSize - 1))
      by (unfold defaultBufSize; lia).
    rewrite Hf. cbn [firstn skipn buffered source srcerr].
    eexists. split; [reflexivity|]. cbn [buffered source srcerr].
    split; [apply firstn_skipn|reflexivity].
  - rewrite Eb. cbn [app] in H. injection H as -> <-.
    eexists. split; [reflexivity|]. cbn [buffered source srcerr]. auto.
Qed.

Lemma readFileHdr_exact (pre : list byte) :
  forall (r : Reader) (acc rest : list byte),
    unread r = pre ++ rest ->
    exists r', Legacy.readFileHdr (length pre) r acc = (r', acc ++ pre, None) /\
               unread r' = rest /\ srcerr r' = srcerr r.
Proof.
  induction pre as [|b pre IH]; intros r acc rest H.
  - exists r. cbn. rewrite app_nil_r. auto.
  - cbn [length Legacy.readFileHdr].
    destruct (ReadByte_next r b (pre ++ rest) H) as (r1 & E1 & U1 & S1).
    rewrite E1. cbn [not_nil].
    destruct (IH r1 (acc ++ [b]) rest U1) as (r2 & E2 & U2 & S2).
    exists r2. rewrite E2, <- app_assoc. split; [reflexivity|].
    split; congruence.
Qed.

Lemma legacy_chunks (p : Parser) :
  snd (fst (Legacy.chunks p)) = map Legacy.coarsen (snd (fst (chunks p))) /\
  snd (Legacy.chunks p) = snd (chunks p) /\
  sameInput (br (fst (fst (Legacy.chunks p)))) (br (fst (fst (chunks p)))) /\
  data (fst (fst (Legacy.chunks p))) = data p.
Proof.
  destruct (chunks_cases p) as [(Hlt & E & C) | [(Hge & Hne & E & C) | H]].
  - rewrite E, C. unfold Legacy.chunks, chunks.
    destruct (IsPNG_spec p) as (r & S & EI). rewrite EI.
    replace (length (unread (br p)) <? 8) with true
      by (symmetry; apply Nat.ltb_lt; exact Hlt).
    cbn [not_nil fst snd br set_br data]. repeat split; reflexivity.
  - rewrite E, C. unfold Legacy.chunks, chunks.
    destruct (IsPNG_spec p) as (r & S & EI). rewrite EI.
    replace (length (unread (br p)) <? 8) with false
      by (symmetry; apply Nat.ltb_ge; exact Hge).
    destruct (bytes_Equal pngHeader (firstn 8 (unread (br p)))) eqn:Eq;
      [apply bytes_Equal_eq in Eq; congruence|].
    cbn [not_nil negb fst snd br set_br data]. repeat split; reflexivity.
  - destruct H as (s & r0 & U & U0 & S0 & E). rewrite E. cbn [fst snd].
    unfold Legacy.chunks.
    destruct (IsPNG_spec p) as (r1 & [U1 S1] & EI). rewrite EI, U.
    replace (length (pngHeader ++ s) <? 8) with false
      by (symmetry; apply Nat.ltb_ge; rewrite length_app; cbn; lia).
    cbn [not_nil].
    replace (firstn 8 (pngHeader ++ s)) with pngHeader by reflexivity.
    replace (bytes_Equal pngHeader pngHeader) with true by reflexivity.
    cbn [negb br set_br]. rewrite U in U1.
    destruct (readFileHdr_exact pngHeader r1 [] s U1) as (r2 & E2 & U2 & S2).
    change (length pngHeader) with 8 in E2. rewrite E2. cbn [br set_br].
    pose proof (legacy_loop r2 []) as L. cbn [map] in L. rewrite L.
    assert (S : sameInput r2 r0) by (split; congruence).
    destruct (loop_sameInput r2 r0 [] S) as (SU & SC & SE).
    cbn [fst snd br set_br data]. rewrite SC, SE. auto.
Qed.

(** X23.  The first revision of the parser and the present one agree: on every
    input [Parse] returns the same error or none, leaves the same input
    unread, and on success stores the same chunks (lengths, data and CRCs)
    in the same order, classified Header where the present one says
    Header and Unknown everywhere else. *)
Theorem Legacy_Parse_agrees (p : Parser) :
  snd (Legacy.Parse p) = snd (Parse p) /\
  unread (br (fst (Legacy.Parse p))) = unread (br (fst (Parse p))) /\
  data (fst (Legacy.Parse p)) =
    match snd (Parse p) with
    | None => map Legacy.coarsen (data (fst (Parse p)))
    | Some _ => data p
    end.
Proof.
  destruct (legacy_chunks p) as (C & E & [U _] & D).
  unfold Legacy.Parse. rewrite Parse_chunks.
  destruct (Legacy.chunks p) as [[p1 cs1] e1]. cbn [fst snd] in *.
  subst e1 cs1. destruct (snd (chunks p)); cbn [not_nil fst snd data set_data br];
    auto.
Qed.

(* ===================================================================== *)
(** ** More about [parseHeader] and [PrintHeader]                         *)
(* ===================================================================== *)

Lemma be32_inj (a0 a1 a2 a3 b0 b1 b2 b3 : byte) :
  be32 a0 a1 a2 a3 = be32 b0 b1 b2 b3 ->
  a0 = b0 /\ a1 = b1 /\ a2 = b2 /\ a3 = b3.
Proof.
  unfold be32.
  change (2 ^ 24)%N with 16777216%N. change (2 ^ 16)%N with 65536%N.
  change (2 ^ 8)%N with 256%N.
  pose proof (Byte.to_N_bounded a0). pose proof (Byte.to_N_bounded a1).
  pose proof (Byte.to_N_bounded a2). pose proof (Byte.to_N_bounded a3).
  pose proof (Byte.to_N_bounded b0). pose proof (Byte.to_N_bounded b1).
  pose proof (Byte.to_N_bounded b2). pose proof (Byte.to_N_bounded b3).
  intros Heq. repeat split; apply to_N_inj; lia.
Qed.

Lemma thirteen_bytes (l : list byte) :
  length l = 13 ->
  exists e0 e1 e2 e3 e4 e5 e6 e7 e8 e9 e10 e11 e12,
    l = [e0; e1; e2; e3; e4; e5; e6; e7; e8; e9; e10; e11; e12].
Proof.
  intros Hl. do 13 (destruct l as [|? l]; [discriminate|]).
  destruct l; [|discriminate]. repeat eexists.
Qed.

Lemma parseHeader_13 (e0 e1 e2 e3 e4 e5 e6 e7 e8 e9 e10 e11 e12 : byte) :
  parseHeader [e0; e1; e2; e3; e4; e5; e6; e7; e8; e9; e10; e11; e12] =
  Some ({| Width := be32 e0 e1 e2 e3;
           Height := be32 e4 e5 e6 e7;
           BitDepth := e8; ColorType := e9;
           CompressionMethod := e10; FilterMethod := e11;
           InterlaceMethod := e12 |}, None).
Proof.
  unfold parseHeader. cbn [length Nat.eqb negb slice Nat.leb andb
    skipn firstn Nat.sub Uint32 index nth_error].
  rewrite !Uint32_4_be32. reflexivity.
Qed.

(** X19.  [parseHeader] loses nothing: two 13-byte payloads that decode to the
    same header are the same bytes. *)
Theorem parseHeader_injective (d d' : list byte) :
  length d = 13 -> length d' = 13 ->
  parseHeader d = parseHeader d' -> d = d'.
Proof.
  intros Hd Hd'.
  destruct (thirteen_bytes d Hd)
    as (a0 & a1 & a2 & a3 & a4 & a5 & a6 & a7 & a8 & a9 & a10 & a11 & a12 & ->).
  destruct (thirteen_bytes d' Hd')
    as (b0 & b1 & b2 & b3 & b4 & b5 & b6 & b7 & b8 & b9 & b10 & b11 & b12 & ->).
  rewrite !parseHeader_13. intros [= Hw Hh -> -> -> -> ->].
  apply be32_inj in Hw. apply be32_inj in Hh.
  destruct Hw as (-> & -> & -> & ->). destruct Hh as (-> & -> & -> & ->).
  reflexivity.
Qed.

Lemma parseHeader_injective_witness : demoHeaderData = demoHeaderData.
Proof.
  apply (parseHeader_injective demoHeaderData demoHeaderData);
    reflexivity.
Defined.

Lemma printHeaders_critical (path : string) (cs : list Chunk) (c : Console) :
  printHeaders path (filter isCritical cs) c = printHeaders path cs c.
Proof.
  revert c. induction cs as [|ch cs IH]; intros c; [reflexivity|].
  cbn [filter printHeaders].
  destruct (isCritical ch) eqn:E; cbn [printHeaders].
  - destruct (printHeaderChunk path ch c); [apply IH|reflexivity].
  - replace (printHeaderChunk path ch c) with (Some c); [apply IH|].
    unfold printHeaderChunk, isCritical in *.
    destruct (Type_ ch); try discriminate; reflexivity.
Qed.

(** X18.  Cleaning does not change what [PrintHeader] shows: for a parsed
    document, the document parsed from the output of [StripTags] is
    printed by [PrintHeader] exactly as the original is, under the same
    path. *)
Theorem PrintHeader_same_after_cleaning (p p1 q : Parser) (c : Console) :
  Parse p = (p1, None) ->
  reads q (delivered (StripTags p1 None)) ->
  Path q = Path p1 ->
  exists q1,
    Parse q = (q1, None) /\ PrintHeader q1 c = PrintHeader p1 c.
Proof.
  intros HP Hq Hpath. apply Parse_chunkOK in HP.
  destruct (critical_as_wire (data p1) HP) as (W1 & W2 & W3).
  rewrite StripTags_open in Hq. cbn [delivered] in Hq. rewrite <- W2 in Hq.
  destruct (Parse_wire q _ W1 Hq) as (q1 & E & D). rewrite W3 in D.
  exists q1. split; [exact E|]. unfold PrintHeader.
  pose proof (Parse_Path q) as PP. rewrite E in PP. cbn [fst] in PP.
  rewrite PP, Hpath, D. apply printHeaders_critical.
Qed.

Lemma PrintHeader_same_after_cleaning_witness :
  exists q1,
    Parse (New "demo.png"
               (pngHeader ++ wire demoIHDR ++ wire demoIDAT ++ wire demoIEND)
               io_EOF) = (q1, None) /\
    PrintHeader q1 {| stdout := []; stderr := [] |} =
    PrintHeader (fst (Parse (New "demo.png" demoPNG io_EOF)))
                {| stdout := []; stderr := [] |}.
Proof.
  apply (PrintHeader_same_after_cleaning
           (New "demo.png" demoPNG io_EOF)
           (fst (Parse (New "demo.png" demoPNG io_EOF)))
           (New "demo.png"
                (pngHeader ++ wire demoIHDR ++ wire demoIDAT ++ wire demoIEND)
                io_EOF)
           {| stdout := []; stderr := [] |}).
  - reflexivity.
  - split; reflexivity.
  - reflexivity.
Defined.

(* ===================================================================== *)
(** ** More about [StripTags]                                             *)
(* ===================================================================== *)

(** What a successful [Parse] has read. *)
Lemma Parse_None_inv (p p' : Parser) :
  Parse p = (p', None) ->
  exists (ws : list wireChunk) (tail : list byte),
    unread (br p) = pngHeader ++ flat_map wire ws ++ tail /\
    Forall wellFormed ws /\ data p' = map parsed ws.
Proof.
  rewrite Parse_chunks.
  destruct (chunks_cases p) as [(_ & E & _) | [(_ & _ & E & _) | H]].
  - rewrite E. discriminate.
  - rewrite E. discriminate.
  - destruct H as (s & r0 & U & U0 & S0 & E). rewrite E. cbn [fst snd].
    destruct (loop_inv r0 []) as (ws & tail & Hws & Hcs & Hu & _ & _).
    destruct (snd (loop r0 [])); [discriminate|]. intros [= <-].
    exists ws, tail. cbn [data set_data]. rewrite U, <- U0, Hu. auto.
Qed.

Lemma critical_is_registered (w : wireChunk) :
  isCritical (parsed w) = true ->
  getChunkType (slice4 (wType w)) <> ChunkTypeUnknown.
Proof.
  unfold isCritical, parsed. cbn [Type_].
  destruct (getChunkType (slice4 (wType w))); discriminate.
Qed.

Lemma length_wire (w : wireChunk) : length (wire w) = 12 + length (wData w).
Proof. unfold wire. rewrite !length_app, !length_slice4. lia. Qed.

Lemma length_stripped_parsed (ws : list wireChunk) :
  length (flat_map emitChunk (filter isCritical (map parsed ws))) <=
  length (flat_map wire ws).
Proof.
  induction ws as [|w ws IH]; [reflexivity|]. cbn [map filter flat_map].
  rewrite length_app.
  destruct (isCritical (parsed w)) eqn:E; [|lia].
  cbn [flat_map]. rewrite length_app.
  rewrite emitChunk_parsed by (apply critical_is_registered; exact E). lia.
Qed.

(** X10.  The stream [StripTags] yields for a parsed document is a PNG stream
    again: the signature followed by whole chunks whose length fields
    count their data. *)
Theorem StripTags_output_is_valid (p p1 : Parser) :
  Parse p = (p1, None) -> validPNG (delivered (StripTags p1 None)).
Proof.
  intros HP. apply Parse_chunkOK in HP.
  destruct (critical_as_wire (data p1) HP) as (W1 & W2 & _).
  rewrite StripTags_open. cbn [delivered].
  exists (map toWire (filter isCritical (data p1))).
  split; [exact W1|]. rewrite W2. reflexivity.
Qed.

Lemma StripTags_output_is_valid_witness :
  validPNG (delivered (StripTags (fst (Parse (New "demo.png" demoPNG io_EOF)))
                                 None)).
Proof.
  apply (StripTags_output_is_valid (New "demo.png" demoPNG io_EOF)).
  reflexivity.
Defined.

(** X11.  Cleaning never makes a file longer: the stream [StripTags] yields for
    a parsed document has at most as many bytes as the input [Parse] was
    given. *)
Theorem StripTags_never_grows (p p1 : Parser) :
  Parse p = (p1, None) ->
  length (delivered (StripTags p1 None)) <= length (unread (br p)).
Proof.
  intros HP. destruct (Parse_None_inv p p1 HP) as (ws & tail & U & _ & D).
  rewrite StripTags_open. cbn [delivered]. rewrite D, U, !length_app.
  pose proof (length_stripped_parsed ws). lia.
Qed.

Lemma StripTags_never_grows_witness :
  length (delivered (StripTags (fst (Parse (New "demo.png" demoPNG io_EOF)))
                               None)) <=
  length (unread (br (New "demo.png" demoPNG io_EOF))).
Proof.
  apply (StripTags_never_grows (New "demo.png" demoPNG io_EOF)).
  reflexivity.
Defined.

(** X12.  A PNG stream that has only critical chunks comes out of parsing and
    stripping unchanged, byte for byte. *)
Theorem StripTags_identity_on_critical_only
        (p : Parser) (ws : list wireChunk) :
  Forall wellFormed ws ->
  Forall (fun w => isCritical (parsed w) = true) ws ->
  reads p (pngHeader ++ flat_map wire ws) ->
  exists p',
    Parse p = (p', None) /\
    delivered (StripTags p' None) = pngHeader ++ flat_map wire ws.
Proof.
  intros Hws Hcrit Hp.
  destruct (Parse_wire p ws Hws Hp) as (p' & E & D).
  exists p'. split; [exact E|].
  rewrite StripTags_open. cbn [delivered]. rewrite D. f_equal.
  clear -Hcrit. induction Hcrit as [|w ws' Hw _ IH]; [reflexivity|].
  cbn [map filter]. rewrite Hw. cbn [flat_map].
  rewrite emitChunk_parsed by (apply critical_is_registered; exact Hw).
  f_equal. exact IH.
Qed.

Lemma StripTags_identity_on_critical_only_witness :
  exists p',
    Parse (New "plain.png"
               (pngHeader ++ flat_map wire [demoIHDR; demoIDAT; demoIEND])
               io_EOF) = (p', None) /\
    delivered (StripTags p' None) =
      pngHeader ++ flat_map wire [demoIHDR; demoIDAT; demoIEND].
Proof.
  apply (StripTags_identity_on_critical_only
           (New "plain.png"
                (pngHeader ++ flat_map wire [demoIHDR; demoIDAT; demoIEND])
                io_EOF)
           [demoIHDR; demoIDAT; demoIEND]).
  - repeat constructor.
  - repeat constructor.
  - split; reflexivity.
Defined.
